(** * nexus3ctl: selection, toggle lists, import ordering and dry mode

    A shallow embedding of [src/nexus3ctl.py].  Python values that come
    out of JSON documents are the inductive [json]; a Python call that
    can raise is a function into [result]; the methods of [Nexus3Ctl]
    that talk to the server thread the log of transport calls. *)

From Stdlib Require Import ZArith Lia.
From stdpp Require Import base option list strings gmap sets sorting.

Set Warnings "-register-all".

Open Scope string_scope.
Open Scope list_scope.
Open Scope Z_scope.

(** ** Exceptions and fallible computations *)

Inductive exn : Type :=
  | TypeError
  | AttributeError
  | AssertionError
  | ValueError
  | KeyError (k : string)
  | ReError
  | JSONDecodeError
  | Nexus3CtlException (msg : string).

Inductive result (A : Type) : Type :=
  | Ok (a : A)
  | Raise (e : exn).
Arguments Ok {A} a.
Arguments Raise {A} e.

#[global] Instance result_ret : MRet result := @Ok.
#[global] Instance result_bind : MBind result := λ A B f m,
  match m with
  | Ok a => f a
  | Raise e => Raise e
  end.
#[global] Instance result_fmap : FMap result := λ A B f m,
  match m with
  | Ok a => Ok (f a)
  | Raise e => Raise e
  end.

(** A comprehension [[x for x in l if p(x)]] whose test can raise: the
    first exception, in list order, ends the comprehension. *)
Fixpoint filterM {A} (p : A → result bool) (l : list A) : result (list A) :=
  match l with
  | [] => Ok []
  | x :: l' =>
      b ← p x;
      r ← filterM p l';
      Ok (if b : bool then x :: r else r)
  end.

Fixpoint mapM {A B} (f : A → result B) (l : list A) : result (list B) :=
  match l with
  | [] => Ok []
  | x :: l' =>
      y ← f x;
      r ← mapM f l';
      Ok (y :: r)
  end.

(** ** Python strings *)

Module PyStr.

(** [s.startswith(p)] is [String.prefix p s]. *)
Definition startswith (s p : string) : bool := String.prefix p s.

(** [sub in s] *)
Fixpoint contains (sub s : string) : bool :=
  String.prefix sub s ||
  match s with
  | EmptyString => false
  | String _ s' => contains sub s'
  end.

Fixpoint rev_append (s acc : string) : string :=
  match s with
  | EmptyString => acc
  | String c s' => rev_append s' (String c acc)
  end.
Definition rev (s : string) : string := rev_append s EmptyString.

(** [s.endswith(p)] *)
Definition endswith (s p : string) : bool := String.prefix (rev p) (rev s).

(** [s[1:]] *)
Definition tail (s : string) : string :=
  match s with
  | EmptyString => EmptyString
  | String _ s' => s'
  end.

(** [s.split(sep)] for a non-empty [sep]: [skip] counts the characters
    of a separator that was recognised and is being passed over, [cur]
    is the current piece, reversed. *)
Fixpoint split_go (sep s : string) (skip : nat) (cur : string) : list string :=
  match s with
  | EmptyString => [rev cur]
  | String c s' =>
      match skip with
      | S k => split_go sep s' k cur
      | O =>
          if String.prefix sep s
          then rev cur :: split_go sep s' (Nat.pred (String.length sep)) EmptyString
          else split_go sep s' O (String c cur)
      end
  end.

(** [s.split(sep)]: an empty separator is a [ValueError]. *)
Definition split (s sep : string) : result (list string) :=
  match sep with
  | EmptyString => Raise ValueError
  | _ => Ok (split_go sep s O EmptyString)
  end.

(** [sep.join(l)] *)
Fixpoint join (sep : string) (l : list string) : string :=
  match l with
  | [] => EmptyString
  | [x] => x
  | x :: l' => x +:+ sep +:+ join sep l'
  end.

End PyStr.

(** ** JSON values

    What [response.json()] and [json.load] produce.  A [dict] keeps its
    entries in order, with distinct keys; numbers are the integers (no
    operation of the program looks inside a number). *)

Inductive json : Type :=
  | JNull
  | JBool (b : bool)
  | JNum (n : Z)
  | JStr (s : string)
  | JList (l : list json)
  | JDict (d : list (string * json)).

(** An Item of the data model: a mapping from field names to values. *)
Definition item : Type := list (string * json).

Fixpoint assoc (k : string) (d : item) : option json :=
  match d with
  | [] => None
  | (k', v) :: d' => if String.eqb k k' then Some v else assoc k d'
  end.

(** [a == b] on JSON values: [bool] is a subtype of [int], lists compare
    element by element, dicts entry by entry whatever the order. *)
Fixpoint json_eq (a b : json) {struct a} : bool :=
  match a, b with
  | JNull, JNull => true
  | JBool x, JBool y => Bool.eqb x y
  | JBool x, JNum n => Z.eqb (if x then 1 else 0) n
  | JNum n, JBool x => Z.eqb n (if x then 1 else 0)
  | JNum n, JNum m => Z.eqb n m
  | JStr s, JStr t => String.eqb s t
  | JList l, JList m =>
      (fix go (l m : list json) {struct l} : bool :=
         match l, m with
         | [], [] => true
         | x :: l', y :: m' => json_eq x y && go l' m'
         | _, _ => false
         end) l m
  | JDict d, JDict e =>
      Nat.eqb (length d) (length e) &&
      (fix go (d : list (string * json)) {struct d} : bool :=
         match d with
         | [] => true
         | (k, v) :: d' =>
             match assoc k e with
             | Some w => json_eq v w
             | None => false
             end && go d'
         end) d
  | _, _ => false
  end.

(** Truth value of a JSON value ([if v:], [not v]). *)
Definition truthy (v : json) : bool :=
  match v with
  | JNull => false
  | JBool b => b
  | JNum n => negb (Z.eqb n 0)
  | JStr s => negb (String.eqb s "")
  | JList l => match l with [] => false | _ => true end
  | JDict d => match d with [] => false | _ => true end
  end.

(** [len(v)] *)
Definition py_len (v : json) : result Z :=
  match v with
  | JStr s => Ok (Z.of_nat (String.length s))
  | JList l => Ok (Z.of_nat (length l))
  | JDict d => Ok (Z.of_nat (length d))
  | _ => Raise TypeError
  end.

(** [v.get(key, dflt)]: only a dict has the method; [v.get(key)] is
    [py_get v key JNull], since Python's [None] is JSON's [null]. *)
Definition py_get (v : json) (key : string) (dflt : json) : result json :=
  match v with
  | JDict d => Ok (default dflt (assoc key d))
  | _ => Raise AttributeError
  end.

(** [v[key]] on a dict. *)
Definition py_getitem (v : json) (key : string) : result json :=
  match v with
  | JDict d =>
      match assoc key d with
      | Some x => Ok x
      | None => Raise (KeyError key)
      end
  | _ => Raise TypeError
  end.

(** [limit in v] for a string [limit]. *)
Definition py_in (limit : string) (v : json) : result bool :=
  match v with
  | JStr s => Ok (PyStr.contains limit s)
  | JList l => Ok (existsb (json_eq (JStr limit)) l)
  | JDict d => Ok (bool_decide (is_Some (assoc limit d)))
  | _ => Raise TypeError
  end.

(** [v.startswith(limit)] and [v.endswith(limit)]: methods of [str] only. *)
Definition py_startswith (v : json) (limit : string) : result bool :=
  match v with
  | JStr s => Ok (PyStr.startswith s limit)
  | _ => Raise AttributeError
  end.

Definition py_endswith (v : json) (limit : string) : result bool :=
  match v with
  | JStr s => Ok (PyStr.endswith s limit)
  | _ => Raise AttributeError
  end.

(** ** The selector: [limit_reduce] *)

(** [LimitSelect]: the values of the enumeration, in declaration order. *)
Module LimitSelect.
Definition EXACT := "exact".
Definition CONTAINS := "contains".
Definition STARTSWITH := "startswith".
Definition ENDSWITH := "endswith".
Definition REGEX := "regex".
Definition list : list string := [EXACT; CONTAINS; STARTSWITH; ENDSWITH; REGEX].
End LimitSelect.

(** The [limits] argument: [None], a string still to be split, or a list. *)
Inductive limits_arg : Type :=
  | LNone
  | LStr (s : string)
  | LList (l : list string).

Section Selector.

(** The [re] module is a collaborator: [re_valid p] says that [p]
    compiles, [re_match p s] that [re.match(p, s)] finds a match at the
    start of [s]. *)
Variable re_valid : string → bool.
Variable re_match : string → string → bool.

(** [re.match(limit, v)]: the pattern is compiled first, then the
    subject must be a string. *)
Definition py_re_match (limit : string) (v : json) : result bool :=
  if re_valid limit then
    match v with
    | JStr s => Ok (re_match limit s)
    | _ => Raise TypeError
    end
  else Raise ReError.

Definition unsupported_mode (select : string) : exn :=
  Nexus3CtlException
    ("Unsupported mode '" +:+ select +:+ "', please choose one of: "
     +:+ PyStr.join "," LimitSelect.list).

(** The [if]/[elif] chain on [select], for one [limit]. *)
Definition matched_for (config : list json) (key : string)
    (select limit : string) : result (list json) :=
  if String.eqb select LimitSelect.EXACT then
    filterM (λ it, v ← py_get it key JNull; Ok (json_eq v (JStr limit))) config
  else if String.eqb select LimitSelect.CONTAINS then
    filterM (λ it, v ← py_get it key JNull; py_in limit v) config
  else if String.eqb select LimitSelect.STARTSWITH then
    filterM (λ it, v ← py_get it key JNull; py_startswith v limit) config
  else if String.eqb select LimitSelect.ENDSWITH then
    filterM (λ it, v ← py_get it key JNull; py_endswith v limit) config
  else if String.eqb select LimitSelect.REGEX then
    filterM (λ it, v ← py_get it key JNull; py_re_match limit v) config
  else Raise (unsupported_mode select).

(** The inner loop [for match in matched]: append a match unless an
    item with the same identifying value is already in [out]. *)
Fixpoint append_new (key : string) (matched out : list json) : result (list json) :=
  match matched with
  | [] => Ok out
  | m :: matched' =>
      ident ← py_get m key JNull;
      existing ← filterM (λ it, v ← py_get it key JNull; Ok (json_eq v ident)) out;
      append_new key matched'
        (match existing with [] => out ++ [m] | _ => out end)
  end.

(** The outer loop [for limit in limits]. *)
Fixpoint reduce_loop (config : list json) (key select : string)
    (limits : list string) (out : list json) : result (list json) :=
  match limits with
  | [] => Ok out
  | limit :: limits' =>
      matched ← matched_for config key select limit;
      out' ← append_new key matched out;
      reduce_loop config key select limits' out'
  end.

Definition limit_reduce (config : json) (key : string)
    (limits : limits_arg) (sep : string) (select : option string)
    : result json :=
  (* select = select or LimitSelect.EXACT *)
  let select :=
    match select with
    | Some s => if String.eqb s "" then LimitSelect.EXACT else s
    | None => LimitSelect.EXACT
    end in
  (* limits = limits.split(sep) if isinstance(limits, str) else limits *)
  limits ← match limits with
           | LNone => Ok []
           | LStr s => PyStr.split s sep
           | LList l => Ok l
           end;
  (* assert isinstance(config, list) *)
  match config with
  | JList items =>
      match limits with
      | [] => Ok config
      | _ => JList <$> reduce_loop items key select limits []
      end
  | _ => Raise AssertionError
  end.

End Selector.


(** ** The toggle-list resolver: [control_list] *)

(** The [config] argument: a string still to be split, or a list. *)
Inductive expr_arg : Type :=
  | EStr (s : string)
  | EList (l : list string).

(** The local variable [out] is a reference.  After [out = defaults] it
    is the list object of [defaults] itself; after [out = []] it is a
    list of its own. *)
Inductive out_ref : Type :=
  | OutDefaults
  | OutOwn (l : list string).

(** The two list objects the loop can reach. *)
Record cl_state : Type := ClState {
  st_defaults : list string;
  st_out : out_ref
}.

(** The list [out] refers to. *)
Definition deref (st : cl_state) : list string :=
  match st_out st with
  | OutDefaults => st_defaults st
  | OutOwn l => l
  end.

(** An update in place of the list [out] refers to. *)
Definition update (st : cl_state) (l : list string) : cl_state :=
  match st_out st with
  | OutDefaults => ClState l OutDefaults
  | OutOwn _ => ClState (st_defaults st) (OutOwn l)
  end.

(** [name in l] *)
Definition mem (name : string) (l : list string) : bool :=
  existsb (String.eqb name) l.

(** [l.remove(name)], for a [name] that is in [l]: the first occurrence goes. *)
Fixpoint remove_first (name : string) (l : list string) : list string :=
  match l with
  | [] => []
  | x :: l' => if String.eqb name x then l' else x :: remove_first name l'
  end.

(** One turn of [for conf in config]. *)
Definition control_step (st : cl_state) (conf : string) : cl_state :=
  if String.eqb conf "" then st
  else
    let '(name, remove) :=
      if PyStr.startswith conf "-" then (PyStr.tail conf, true)
      else if PyStr.startswith conf "+" then (PyStr.tail conf, false)
      else (conf, false) in
    if String.eqb conf "ALL" then ClState (st_defaults st) OutDefaults
    else if String.eqb conf "NONE" then ClState (st_defaults st) (OutOwn [])
    else if negb remove then
      if mem name (deref st) then st else update st (deref st ++ [name])
    else
      if mem name (deref st) then update st (remove_first name (deref st)) else st.

(** What a call leaves behind: the returned set, and the caller's two
    arguments as they are after the call. *)
Record control_out : Type := ControlOut {
  co_result : gset string;
  co_defaults : option (list string);
  co_config : expr_arg
}.

(** [if default is not None and default not in config: config.insert(0, default)] *)
Definition with_default (config : list string) (default : option string) : list string :=
  match default with
  | Some d => if mem d config then config else d :: config
  | None => config
  end.

Definition control_list (config : expr_arg) (defaults : option (list string))
    (delim : string) (default : option string) : result control_out :=
  (* defaults = defaults or [] : a falsy argument is replaced by a new list *)
  let shared := match defaults with Some (_ :: _) => true | _ => false end in
  let dflt := match defaults with Some l => l | None => [] end in
  tokens ← match config with
           | EStr s => PyStr.split s delim
           | EList l => Ok l
           end;
  let tokens := with_default tokens default in
  let st := foldl control_step (ClState dflt (OutOwn [])) tokens in
  Ok (ControlOut
        (list_to_set (deref st))
        (if shared then Some (st_defaults st) else defaults)
        (match config with EStr s => EStr s | EList _ => EList tokens end)).

(** ** Import ordering *)

(** [sorted(l, key=f)] is stable: elements with equal keys keep their
    input order.  The keys are computed first, one per element and in
    order; the sort is an insertion sort on the decorated list, which
    yields the one stable arrangement. *)
Fixpoint insert_keyed {A} (k : Z) (x : A) (l : list (Z * A)) : list (Z * A) :=
  match l with
  | [] => [(k, x)]
  | (k', y) :: l' =>
      if Z.leb k k' then (k, x) :: l else (k', y) :: insert_keyed k x l'
  end.

Definition sort_keyed {A} (l : list (Z * A)) : list (Z * A) :=
  foldr (λ p acc, insert_keyed p.1 p.2 acc) [] l.

Definition py_sorted {A} (key : A → result Z) (l : list A) : result (list A) :=
  keys ← mapM key l;
  Ok ((sort_keyed (zip keys l)).*2).

(** [Nexus3Ctl.nexus_sort_repos] *)
Definition nexus_sort_repos (file_name : string) : Z :=
  if PyStr.contains "hosted" file_name then 1
  else if PyStr.contains "proxy" file_name then 2
  else 3.

(** [Nexus3Ctl.nexus_sort_roles] *)
Definition nexus_sort_roles (it : json) : result Z :=
  roles ← py_get it "roles" (JList []);
  privileges ← py_get it "privileges" (JList []);
  n ← py_len roles;
  m ← py_len privileges;
  Ok (n * 3 + m).

(** ** The transport and the methods of [Nexus3Ctl] *)

(** A call that [requests] really sends.  The headers, the credentials
    and the timeout are the same for every call of one application
    object and are left out. *)
Record request : Type := Request {
  rq_method : string;
  rq_url : string;
  rq_data : option string
}.

(** What [api_client] hands back: an answer of the server, whose body
    may or may not decode as JSON, or the [FakeResponse] mock, which has
    a status code and nothing else. *)
Inductive response : Type :=
  | HttpResponse (status : Z) (body : option json)
  | FakeResponse (status : Z).

Definition status_code (r : response) : Z :=
  match r with
  | HttpResponse s _ => s
  | FakeResponse s => s
  end.

(** [response.json()] *)
Definition response_json (r : response) : result json :=
  match r with
  | HttpResponse _ (Some v) => Ok v
  | HttpResponse _ None => Raise JSONDecodeError
  | FakeResponse _ => Raise AttributeError
  end.

(** The collaborators of the program. *)
Record env : Type := Env {
  (** the server: its answer to a call, given the calls sent before;
      [requests] raises when there is no answer *)
  remote : list request → request → result (Z * option json);
  (** [json.dumps] *)
  dumps : json → string;
  (** [str(v)], as an f-string formats a value that is not a string *)
  py_repr : json → string;
  (** [dict(v)] for a [v] that is not a dict *)
  dict_of_seq : json → result item;
  (** [glob.glob] *)
  glob : string → list string;
  (** [json.load(open(file))] *)
  load : string → result json;
  (** the [re] module *)
  re_valid : string → bool;
  re_match : string → string → bool
}.

(** A method body: it can raise, and in either case it leaves the log of
    the calls sent so far. *)
Definition M (A : Type) : Type := list request → result A * list request.

#[global] Instance M_ret : MRet M := λ A a log, (Ok a, log).
#[global] Instance M_bind : MBind M := λ A B f m log,
  match m log with
  | (Ok a, log') => f a log'
  | (Raise e, log') => (Raise e, log')
  end.

(** A step that cannot touch the transport. *)
Definition lift {A} (r : result A) : M A := λ log, (r, log).

(** [for x in l: f(x)] *)
Fixpoint for_each {A} (f : A → M unit) (l : list A) : M unit :=
  match l with
  | [] => mret tt
  | x :: l' => _ ← f x; for_each f l'
  end.

(** The application object: the attributes the methods read. *)
Record Nexus3Ctl : Type := App {
  api_url : string;
  dry_mode : bool;
  target_dir : string;
  targets : list string
}.

(** [ResourceTypes] *)
Module ResourceTypes.
Definition REPOS := "repos".
Definition ROLES := "roles".
Definition LDAP := "ldap".
Definition REALMS := "realms".
Definition list : list string := [REPOS; ROLES; LDAP; REALMS].
End ResourceTypes.

Definition nexus_default_roles : list string := ["nx-admin"; "nx-anonymous"].

(** [f"{v}"] *)
Definition fstr (E : env) (v : json) : string :=
  match v with
  | JStr s => s
  | _ => py_repr E v
  end.

(** [dict(v)] *)
Definition py_dict (E : env) (v : json) : result item :=
  match v with
  | JDict d => Ok d
  | _ => dict_of_seq E v
  end.

(** The elements a [for] loop, a comprehension or [list(v)] goes through. *)
Definition py_iter (v : json) : result (list json) :=
  match v with
  | JList l => Ok l
  | JStr s => Ok ((λ c, JStr (String c EmptyString)) <$> String.list_ascii_of_string s)
  | JDict d => Ok ((λ kv, JStr kv.1) <$> d)
  | _ => Raise TypeError
  end.

(** [d[k] = v] and [del d[k]] *)
Fixpoint dict_set (k : string) (v : json) (d : item) : item :=
  match d with
  | [] => [(k, v)]
  | (k', w) :: d' =>
      if String.eqb k k' then (k, v) :: d' else (k', w) :: dict_set k v d'
  end.

Definition dict_del (k : string) (d : item) : item :=
  filter (λ kv, kv.1 ≠ k) d.

(** [if limits:] *)
Definition limits_truthy (limits : limits_arg) : bool :=
  match limits with
  | LNone => false
  | LStr s => negb (String.eqb s "")
  | LList l => match l with [] => false | _ => true end
  end.

Section Methods.

Variable E : env.
Variable self : Nexus3Ctl.

(** [requests.get], [.put], [.post], [.delete]: the call goes out, and is
    logged, whether or not an answer comes back. *)
Definition send (method url : string) (data : option string) : M response :=
  λ log,
    let rq := Request method url data in
    ((λ a, HttpResponse a.1 a.2) <$> remote E log rq, log ++ [rq]).

Definition api_client (url_path method : string) (data : json) (dry : option bool)
    : M response :=
  (* dry = dry if isinstance(dry, bool) else self.dry_mode *)
  let dry := default (dry_mode self) dry in
  (* data = data if isinstance(data, str) else json.dumps(data) *)
  let data := match data with JStr s => s | _ => dumps E data end in
  let url := api_url self +:+ url_path in
  out ← (if dry then
           if String.eqb method "GET" then send "GET" url None
           else mret (FakeResponse 200)
         else
           if String.eqb method "PUT" then send "PUT" url (Some data)
           else if String.eqb method "POST" then send "POST" url (Some data)
           else if String.eqb method "DELETE" then send "DELETE" url None
           else if String.eqb method "GET" then send "GET" url None
           else lift (Raise (Nexus3CtlException ("Unsupported HTTP method: " +:+ method))));
  if Z.eqb (status_code out) 401
  then lift (Raise (Nexus3CtlException "Could not authenticate against API, got 401"))
  else mret out.

(** [self.api_client(url_path)] *)
Definition api_fetch (url_path : string) : M response :=
  api_client url_path "GET" JNull None.

Definition nexus_remap_format (name : json) : json :=
  if json_eq name (JStr "maven2") then JStr "maven" else name.

Definition select_by_name (out : json) (limits : limits_arg) (select : option string)
    : result json :=
  limit_reduce (re_valid E) (re_match E) out "name" limits "," select.

(** The body shared by [api_get_repos], [api_get_ldaps] and [api_get_realms]. *)
Definition api_get_collection (url_path : string) (limits : limits_arg)
    (select : option string) : M json :=
  response ← api_fetch url_path;
  if Z.eqb (status_code response) 200 then
    out ← lift (response_json response);
    if limits_truthy limits then lift (select_by_name out limits select)
    else mret out
  else mret (JDict []).

Definition api_get_repos := api_get_collection "repositories".
Definition api_get_ldaps := api_get_collection "security/ldap".
Definition api_get_realms := api_get_collection "security/realms/active".

(** The body shared by [api_get_role], [api_get_ldap] and the last step
    of [api_get_repo]. *)
Definition api_get_one (url_path : string) : M json :=
  response ← api_fetch url_path;
  if Z.eqb (status_code response) 200 then lift (response_json response)
  else mret (JDict []).

Definition api_get_repo (name repo_format repo_type : json) : M json :=
  ft ← (if negb (truthy repo_format) || negb (truthy repo_type) then
          response ← api_fetch ("repositories/" +:+ fstr E name);
          if Z.eqb (status_code response) 200 then
            payload ← lift (response_json response);
            f ← lift (py_getitem payload "format");
            t ← lift (py_getitem payload "type");
            mret (Some (f, t))
          else mret None
        else mret (Some (repo_format, repo_type)));
  match ft with
  | None => mret (JDict [])
  | Some (repo_format, repo_type) =>
      let repo_format := nexus_remap_format repo_format in
      api_get_one ("repositories/" +:+ fstr E repo_format +:+ "/"
                   +:+ fstr E repo_type +:+ "/" +:+ fstr E name)
  end.

Definition api_set_repo (config : json) : M unit :=
  config ← lift (py_dict E config);
  name ← lift (py_getitem (JDict config) "name");
  current ← api_get_repo name JNull JNull;
  fmt ← lift (py_getitem (JDict config) "format");
  let config := dict_set "format" (nexus_remap_format fmt) config in
  let config := dict_del "url" config in
  _format ← lift (py_getitem (JDict config) "format");
  _type ← lift (py_getitem (JDict config) "type");
  ret ← (if dry_mode self then
           mret (if truthy current then FakeResponse 204 else FakeResponse 201)
         else if truthy current then
           api_client ("repositories/" +:+ fstr E _format +:+ "/" +:+ fstr E _type
                       +:+ "/" +:+ fstr E name) "PUT" (JDict config) None
         else
           api_client ("repositories/" +:+ fstr E _format +:+ "/" +:+ fstr E _type)
                      "POST" (JDict config) None);
  mret tt.

Definition api_get_roles (exclude_ldap exclude_default : bool)
    (limits : limits_arg) (select : option string) : M json :=
  response ← api_fetch "security/roles";
  if negb (Z.eqb (status_code response) 200) then mret (JDict [])
  else
    out ← lift (response_json response);
    out ← (if limits_truthy limits then lift (select_by_name out limits select)
           else mret out);
    out ← (if exclude_default then
             items ← lift (py_iter out);
             lift (JList <$> filterM (λ it,
               v ← py_get it "id" JNull;
               Ok (negb (existsb (λ r, json_eq v (JStr r)) nexus_default_roles))) items)
           else mret out);
    out ← (if exclude_ldap then
             items ← lift (py_iter out);
             lift (JList <$> filterM (λ it,
               v ← py_get it "source" JNull;
               Ok (negb (json_eq v (JStr "LDAP")))) items)
           else mret out);
    mret out.

Definition api_get_role (ident : json) : M json :=
  api_get_one ("security/roles/" +:+ fstr E ident).

Definition api_set_role (config : json) (ident : json) : M unit :=
  config ← lift (py_dict E config);
  (* ident = ident or config["id"] *)
  ident ← (if truthy ident then mret ident
           else lift (py_getitem (JDict config) "id"));
  current ← api_get_role ident;
  ret ← (if dry_mode self then
           mret (if truthy current then FakeResponse 200 else FakeResponse 204)
         else if truthy current then
           api_client ("security/roles/" +:+ fstr E ident) "PUT" (JDict config) None
         else
           api_client "security/roles" "POST" (JDict config) None);
  mret tt.

Definition api_get_ldap (ident : json) : M json :=
  api_get_one ("security/ldap/" +:+ fstr E ident).

Definition api_set_ldap (config : json) (name : json) : M unit :=
  config ← lift (py_dict E config);
  ident ← (if truthy name then mret name
           else lift (py_getitem (JDict config) "name"));
  current ← api_get_ldap ident;
  ret ← (if dry_mode self then
           mret (if truthy current then FakeResponse 204 else FakeResponse 201)
         else if truthy current then
           (* the endpoint has no update: nothing is sent *)
           mret (FakeResponse 204)
         else
           api_client "security/ldap" "POST" (JDict config) None);
  mret tt.

(** [','.join(config)] in the report of [api_set_realms]: every element
    must be a string. *)
Definition join_check (config : list json) : result unit :=
  _ ← mapM (λ v, match v with JStr s => Ok s | _ => Raise TypeError end) config;
  Ok tt.

Definition api_set_realms (config : json) : M unit :=
  config ← lift (py_iter config);
  ret ← (if dry_mode self then mret (FakeResponse 200)
         else api_client "security/realms/active" "PUT" (JList config) None);
  lift (join_check config).

(** *** The import side of the command line *)

Definition cli_import_realms : M unit :=
  let files := glob E (target_dir self +:+ "/conf/realms.*") in
  match files with
  | [] => mret tt
  | file :: _ =>
      realms ← lift (load E file);
      api_set_realms realms
  end.

Definition cli_import_ldap : M unit :=
  let files := glob E (target_dir self +:+ "/ldap/*.json") in
  ldaps ← lift (mapM (load E) files);
  for_each (λ ldap, api_set_ldap ldap JNull) ldaps.

Definition cli_import_roles : M unit :=
  let files := glob E (target_dir self +:+ "/roles/*.json") in
  items ← lift (mapM (load E) files);
  items ← lift (py_sorted nexus_sort_roles items);
  for_each (λ role, api_set_role role JNull) items.

Definition cli_import_repos : M unit :=
  let files := glob E (target_dir self +:+ "/repos/*.json") in
  files ← lift (py_sorted (λ f, Ok (nexus_sort_repos f)) files);
  for_each (λ file,
    repo ← lift (load E file);
    api_set_repo repo) files.

(** The [import] command, after the option parsing: the resource types
    are resolved from the defaults [self.targets], then each active type
    is imported in turn. *)
Definition cli_import (types : string) : M unit :=
  r ← lift (control_list (EStr types) (Some (targets self)) "," (Some "ALL"));
  let _types := co_result r in
  _ ← (if bool_decide (ResourceTypes.REPOS ∈ _types) then cli_import_repos else mret tt);
  _ ← (if bool_decide (ResourceTypes.LDAP ∈ _types) then cli_import_ldap else mret tt);
  _ ← (if bool_decide (ResourceTypes.ROLES ∈ _types) then cli_import_roles else mret tt);
  if bool_decide (ResourceTypes.REALMS ∈ _types) then cli_import_realms else mret tt.

End Methods.

(** ** Vocabulary of the statements *)

(** [has_key key r it]: the [key] field of [it] equals the rule [r]. *)
Definition has_key (key r : string) (it : item) : Prop :=
  json_eq (default JNull (assoc key it)) (JStr r) = true.

#[global] Instance has_key_dec key r it : Decision (has_key key r it).
Proof. unfold has_key. apply _. Defined.

(** The rules in order of first occurrence, each once. *)
Definition distinct (rules : list string) : list string :=
  foldl (λ acc r, if mem r acc then acc else acc ++ [r]) [] rules.

(** What one rule adds to [out] under the exact strategy: the first item
    of the collection that carries the rule, unless [out] already holds
    an item that carries it. *)
Definition exact_step (key : string) (config out : list item) (r : string) : list item :=
  match filter (has_key key r) config with
  | [] => out
  | m :: _ => if decide (Exists (has_key key r) out) then out else out ++ [m]
  end.

(** The reading of "prepend the default token unless it is already the
    first token". *)
Definition prepend_unless_first (config : list string) (d : string) : list string :=
  match config with
  | x :: _ => if String.eqb x d then config else d :: config
  | [] => d :: config
  end.

(** The evaluation of a toggle expression as section 4.2 of the
    specification words it, on sets: [ALL] gives the defaults, [NONE]
    the empty set, [-name] removes, [+name] and a plain name add, an
    empty token is skipped. *)
Definition resolve_step (defaults : list string) (acc : gset string)
    (tok : string) : gset string :=
  if String.eqb tok "" then acc
  else if String.eqb tok "ALL" then list_to_set defaults
  else if String.eqb tok "NONE" then ∅
  else if PyStr.startswith tok "-" then acc ∖ {[PyStr.tail tok]}
  else if PyStr.startswith tok "+" then acc ∪ {[PyStr.tail tok]}
  else acc ∪ {[tok]}.

Definition resolve (tokens defaults : list string) : gset string :=
  foldl (resolve_step defaults) ∅ tokens.

(** The methods of [Nexus3Ctl] that reach the transport, each with its
    arguments. *)
Inductive method_call : Type :=
  | ApiGetRepos (limits : limits_arg) (select : option string)
  | ApiGetRepo (name repo_format repo_type : json)
  | ApiSetRepo (config : json)
  | ApiGetRoles (exclude_ldap exclude_default : bool)
      (limits : limits_arg) (select : option string)
  | ApiGetRole (ident : json)
  | ApiSetRole (config ident : json)
  | ApiGetLdaps (limits : limits_arg) (select : option string)
  | ApiGetLdap (ident : json)
  | ApiSetLdap (config name : json)
  | ApiGetRealms (limits : limits_arg) (select : option string)
  | ApiSetRealms (config : json)
  | CliImportRealms
  | CliImportLdap
  | CliImportRoles
  | CliImportRepos
  | CliImport (types : string).

(** A call, run for its effect on the transport. *)
Definition run (E : env) (self : Nexus3Ctl) (c : method_call) : M unit :=
  match c with
  | ApiGetRepos l s => _ ← api_get_repos E self l s; mret tt
  | ApiGetRepo n f t => _ ← api_get_repo E self n f t; mret tt
  | ApiSetRepo c => api_set_repo E self c
  | ApiGetRoles xl xd l s => _ ← api_get_roles E self xl xd l s; mret tt
  | ApiGetRole i => _ ← api_get_role E self i; mret tt
  | ApiSetRole c i => api_set_role E self c i
  | ApiGetLdaps l s => _ ← api_get_ldaps E self l s; mret tt
  | ApiGetLdap i => _ ← api_get_ldap E self i; mret tt
  | ApiSetLdap c n => api_set_ldap E self c n
  | ApiGetRealms l s => _ ← api_get_realms E self l s; mret tt
  | ApiSetRealms c => api_set_realms E self c
  | CliImportRealms => cli_import_realms E self
  | CliImportLdap => cli_import_ldap E self
  | CliImportRoles => cli_import_roles E self
  | CliImportRepos => cli_import_repos E self
  | CliImport types => cli_import E self types
  end.

(** [only_gets m]: whatever the log before, [m] adds to it nothing but
    GET calls, whether it returns or raises. *)
Definition only_gets {A} (m : M A) : Prop :=
  ∀ log, ∃ new, (m log).2 = log ++ new ∧ Forall (λ rq, rq_method rq = "GET") new.

(** ** A server and an application object for the examples *)

(** Every call is answered 200 with an empty list; the file store is
    empty. *)
Definition demo_env : env :=
  Env (λ _ _, Ok (200, Some (JList [])))
      (λ _, "") (λ _, "") (λ _, Raise TypeError)
      (λ _, []) (λ _, Raise ValueError)
      (λ _, true) (λ _ _, false).

(** The same, but the server answers 404, without a body. *)
Definition demo_env_404 : env :=
  Env (λ _ _, Ok (404, None))
      (λ _, "") (λ _, "") (λ _, Raise TypeError)
      (λ _, []) (λ _, Raise ValueError)
      (λ _, true) (λ _ _, false).

Definition demo_app (dry : bool) : Nexus3Ctl :=
  App "http://nexus/service/rest/v1/" dry "out" ResourceTypes.list.

(** A file store with one repository in it, for the examples. *)
Definition demo_repo : json :=
  JDict [("name", JStr "releases"); ("format", JStr "maven2");
         ("type", JStr "hosted"); ("url", JStr "http://nexus/repository/releases")].

Definition demo_env_files : env :=
  Env (λ _ _, Ok (200, Some (JDict [("format", JStr "maven2"); ("type", JStr "hosted")])))
      (λ _, "{}") (λ _, "") (λ _, Raise TypeError)
      (λ pat, if String.eqb pat "out/repos/*.json"
              then ["out/repos/maven2-hosted__releases.json"] else [])
      (λ _, Ok demo_repo)
      (λ _, true) (λ _ _, false).

(** Two roles for the examples: one that refers to nothing, one that
    refers to the role ["x"]. *)
Definition role_plain : json :=
  JDict [("id", JStr "plain"); ("roles", JList []); ("privileges", JList [])].
Definition role_nested : json :=
  JDict [("id", JStr "nested"); ("roles", JList [JStr "x"]); ("privileges", JList [])].

(** ** Vocabulary of the further properties *)

(** The [key] field of an item, as a string (empty when the field is
    missing or is not a string). *)
Definition key_str (key : string) (it : item) : string :=
  match assoc key it with
  | Some (JStr s) => s
  | _ => ""
  end.

(** A collection in which every item carries a string in the key field. *)
Definition well_keyed (key : string) (config : list item) : Prop :=
  Forall (λ it, ∃ s, assoc key it = Some (JStr s)) config.

(** What a rule matches, on the string of the key field, under each
    strategy. *)
Definition rule_matches (rm : string → string → bool) (select rule s : string) : bool :=
  if String.eqb select LimitSelect.EXACT then String.eqb s rule
  else if String.eqb select LimitSelect.CONTAINS then PyStr.contains rule s
  else if String.eqb select LimitSelect.STARTSWITH then PyStr.startswith s rule
  else if String.eqb select LimitSelect.ENDSWITH then PyStr.endswith s rule
  else if String.eqb select LimitSelect.REGEX then rm rule s
  else false.

(** Appending a match unless its identifying value is already there. *)
Definition add_new {A} (k : A → string) (out : list A) (m : A) : list A :=
  if decide (k m ∈ k <$> out) then out else out ++ [m].

(** [matching_rule rm select key r it]: the item [it] matches the rule
    [r] under the strategy [select]. *)
Definition matching_rule (rm : string → string → bool) (select key r : string)
    (it : item) : Prop :=
  rule_matches rm select r (key_str key it) = true.

#[global] Instance matching_rule_dec rm select key r it :
  Decision (matching_rule rm select key r it).
Proof. unfold matching_rule. apply _. Defined.

(** What one rule adds to [out]: its matches, in the order of the
    collection, each unless its identifying value is already there. *)
Definition sel_step (rm : string → string → bool) (select key : string)
    (config out : list item) (r : string) : list item :=
  foldl (add_new (key_str key)) out (filter (matching_rule rm select key r) config).

(** Two repositories for the examples. *)
Definition repo_releases : item :=
  [("name", JStr "maven-releases"); ("format", JStr "maven2"); ("type", JStr "hosted")].
Definition repo_central : item :=
  [("name", JStr "maven-central"); ("format", JStr "maven2"); ("type", JStr "proxy")].

(** [sends_only P m]: whatever the log before, [m] adds to it only
    calls that satisfy [P], whether it returns or raises. *)
Definition sends_only {A} (P : request → Prop) (m : M A) : Prop :=
  ∀ log, ∃ new, (m log).2 = log ++ new ∧ Forall P new.

(** [silent m]: [m] sends nothing. *)
Definition silent {A} (m : M A) : Prop := ∀ log, (m log).2 = log.

(** [reads_then_writes W m]: [m] adds GET calls to the log and then at
    most one more call, which satisfies [W]. *)
Definition reads_then_writes {A} (W : request → Prop) (m : M A) : Prop :=
  ∀ log, ∃ gets tail,
    (m log).2 = log ++ gets ++ tail
    ∧ Forall (λ rq, rq_method rq = "GET") gets
    ∧ (tail = [] ∨ ∃ rq, tail = [rq] ∧ W rq).

(** The exception of [api_client] on an answer 401. *)
Definition auth_failure : exn :=
  Nexus3CtlException "Could not authenticate against API, got 401".

(** The GET that [api_client] sends for a path. *)
Definition get_request (self : Nexus3Ctl) (url_path : string) : request :=
  Request "GET" (api_url self +:+ url_path) None.

(** A server that answers every call 401. *)
Definition demo_env_401 : env :=
  Env (λ _ _, Ok (401, None))
      (λ _, "") (λ _, "") (λ _, Raise TypeError)
      (λ _, []) (λ _, Raise ValueError)
      (λ _, true) (λ _ _, false).

(** A server that lists three roles, for the examples. *)
Definition demo_roles : list item :=
  [ [("id", JStr "nx-admin"); ("source", JStr "default")];
    [("id", JStr "developers"); ("source", JStr "default")];
    [("id", JStr "ldap-users"); ("source", JStr "LDAP")] ].

Definition demo_env_roles : env :=
  Env (λ _ _, Ok (200, Some (JList (JDict <$> demo_roles))))
      (λ _, "") (λ _, "") (λ _, Raise TypeError)
      (λ _, []) (λ _, Raise ValueError)
      (λ _, true) (λ _ _, false).

(** A file store in which a role file is found that cannot be read. *)
Definition demo_env_broken : env :=
  Env (λ _ _, Ok (200, Some (JList [])))
      (λ _, "") (λ _, "") (λ _, Raise TypeError)
      (λ _, ["out/a.json"; "out/b.json"])
      (λ f, if String.eqb f "out/a.json" then Ok role_plain else Raise JSONDecodeError)
      (λ _, true) (λ _ _, false).

(** ** The export side: files and the commands that write them *)

(** An operation on the file store that the program asks for. *)
Inductive fs_op : Type :=
  | MakeDirs (dir : string)
  | WriteFile (filename content : string)
  | RmTree (dir : string).

(** The collaborators of the export side. *)
Record fsenv : Type := FsEnv {
  (** [os.path.isdir], given the operations made so far *)
  isdir : list fs_op → string → bool;
  (** [os.path.dirname] *)
  dirname : string → string;
  (** whether an operation goes through, given those made so far *)
  fs_run : list fs_op → fs_op → result unit;
  (** [json.dumps(v, indent=2)], [yaml.dump(v)] and [str(v)] *)
  dumps_indent : json → string;
  yaml_dump : json → string;
  py_str : json → string
}.

(** [OutputFormat] *)
Module OutputFormat.
Definition YAML := "yaml".
Definition JSON := "json".
Definition PYTHON := "python".
Definition list : list string := [YAML; JSON; PYTHON].
End OutputFormat.

(** The state of an export: the calls sent and the file operations
    asked for, in order. *)
Record world : Type := World {
  calls : list request;
  ops : list fs_op
}.

Definition X (A : Type) : Type := world → result A * world.

#[global] Instance X_ret : MRet X := λ A a w, (Ok a, w).
#[global] Instance X_bind : MBind X := λ A B f m w,
  match m w with
  | (Ok a, w') => f a w'
  | (Raise e, w') => (Raise e, w')
  end.

(** A step that touches neither the transport nor the files. *)
Definition liftX {A} (r : result A) : X A := λ w, (r, w).

(** A method of the transport, run in an export. *)
Definition liftM {A} (m : M A) : X A := λ w,
  let '(r, log) := m (calls w) in (r, World log (ops w)).

Fixpoint for_eachX {A} (f : A → X unit) (l : list A) : X unit :=
  match l with
  | [] => mret tt
  | x :: l' => _ ← f x; for_eachX f l'
  end.

(** [os.path.join(a, *ps)] *)
Definition path_join (a : string) (ps : list string) : string :=
  foldl (λ path b,
           if PyStr.startswith b "/" then b
           else if String.eqb path "" || PyStr.endswith path "/" then path +:+ b
           else path +:+ "/" +:+ b) a ps.

(** A path component must be a string. *)
Definition as_path (v : json) : result string :=
  match v with
  | JStr s => Ok s
  | _ => Raise TypeError
  end.

Section Exports.

Variable E : env.
Variable F : fsenv.
Variable self : Nexus3Ctl.

(** [self.output_format] *)
Variable output_format : option string.

(** An operation on the file store: it is recorded, whether or not it
    goes through. *)
Definition fs (op : fs_op) : X unit := λ w,
  (fs_run F (ops w) op, World (calls w) (ops w ++ [op])).

Definition write_to_file (filename : string) (content : json) (fmt : option string)
    (append_ext dry : bool) : X string :=
  cf ← liftX (match fmt with
              | None => Ok (py_str F content, filename)
              | Some f =>
                  if String.eqb f OutputFormat.JSON then
                    Ok (dumps_indent F content,
                        if append_ext then filename +:+ ".json" else filename)
                  else if String.eqb f OutputFormat.YAML then
                    Ok (yaml_dump F content,
                        if append_ext then filename +:+ ".yaml" else filename)
                  else Raise (Nexus3CtlException ("Unsupported format: " +:+ f))
              end);
  let content := cf.1 in
  let filename := cf.2 in
  _ ← (if dry then mret tt
       else
         let dest_dir := dirname F filename in
         _ ← (λ w, if isdir F (ops w) dest_dir then (mret tt : X unit) w
                   else fs (MakeDirs dest_dir) w);
         fs (WriteFile filename content));
  mret filename.

Definition clean_target_dir : X unit := λ w,
  if isdir F (ops w) (target_dir self) then
    (if dry_mode self then (mret tt : X unit) w else fs (RmTree (target_dir self)) w)
  else (mret tt : X unit) w.

Definition cli_export_realms (limits : limits_arg) (select : option string) : X unit :=
  items ← liftM (api_get_realms E self limits select);
  let dest := path_join (target_dir self) ["conf"; "realms"] in
  _ ← write_to_file dest items output_format true (dry_mode self);
  mret tt.

(** The loop shared by [cli_export_ldap] and [cli_export_roles]: the
    number of items is reported first, then each item is written to the
    file of its name. *)
Definition export_by_name (folder : string) (items : json) : X unit :=
  _ ← liftX (py_len items);
  items ← liftX (py_iter items);
  for_eachX (λ it,
    name ← liftX (py_getitem it "name");
    name ← liftX (as_path name);
    let dest := path_join (target_dir self) [folder; name] in
    _ ← write_to_file dest it output_format true (dry_mode self);
    mret tt) items.

Definition cli_export_ldap (limits : limits_arg) (select : option string) : X unit :=
  items ← liftM (api_get_ldaps E self limits select);
  export_by_name "ldap" items.

Definition cli_export_roles (limits : limits_arg) (select : option string) : X unit :=
  items ← liftM (api_get_roles E self true true limits select);
  export_by_name "roles" items.

Definition cli_export_repos (limits : limits_arg) (select : option string) : X unit :=
  items ← liftM (api_get_repos E self limits select);
  _ ← liftX (py_len items);
  items ← liftX (py_iter items);
  for_eachX (λ repo,
    name ← liftX (py_getitem repo "name");
    repo_format ← liftX (py_getitem repo "format");
    repo_type ← liftX (py_getitem repo "type");
    let dest := path_join (target_dir self)
                  ["repos"; fstr E repo_format +:+ "-" +:+ fstr E repo_type
                            +:+ "__" +:+ fstr E name] in
    payload ← liftM (api_get_repo E self name repo_format repo_type);
    _ ← liftX (match payload with JDict _ => Ok tt | _ => Raise AssertionError end);
    _ ← write_to_file dest payload output_format true (dry_mode self);
    mret tt) items.

(** The [export] command, after the option parsing. *)
Definition cli_export (types limits : string) (select : option string) (clean : bool)
    : X unit :=
  r ← liftX (control_list (EStr types) (Some (targets self)) "," (Some "NONE"));
  let _types := co_result r in
  _ ← (if clean then clean_target_dir else mret tt);
  _ ← (if bool_decide (ResourceTypes.REPOS ∈ _types)
       then cli_export_repos (LStr limits) select else mret tt);
  _ ← (if bool_decide (ResourceTypes.LDAP ∈ _types)
       then cli_export_ldap (LStr limits) select else mret tt);
  _ ← (if bool_decide (ResourceTypes.ROLES ∈ _types)
       then cli_export_roles (LStr limits) select else mret tt);
  if bool_decide (ResourceTypes.REALMS ∈ _types)
  then cli_export_realms (LStr limits) select else mret tt.

End Exports.

(** [exports_only P Q m]: whatever the state before, [m] adds to it
    only calls that satisfy [P] and file operations that satisfy [Q]. *)
Definition exports_only {A} (P : request → Prop) (Q : fs_op → Prop) (m : X A) : Prop :=
  ∀ w, ∃ new_calls new_ops,
    calls (m w).2 = calls w ++ new_calls ∧ Forall P new_calls
    ∧ ops (m w).2 = ops w ++ new_ops ∧ Forall Q new_ops.

(** A file store for the examples: no directory exists, every
    operation goes through. *)
Definition demo_fs : fsenv :=
  FsEnv (λ _ _, false)
        (λ f, "out") (λ _ _, Ok tt) (λ _, "{}") (λ _, "{}") (λ _, "{}").

(** When [write_to_file] is sure to ask only for operations that
    satisfy [Q]: in dry mode, with a format it does not support, or
    when [Q] holds of every operation. *)
Definition writes_within (Q : fs_op → Prop) (fmt : option string) (dry : bool) : Prop :=
  dry = true
  ∨ (∃ f, fmt = Some f ∧ f ≠ OutputFormat.JSON ∧ f ≠ OutputFormat.YAML)
  ∨ ∀ op, Q op.

(** The files written by a sequence of operations: name and content. *)
Definition written (l : list fs_op) : list (string * string) :=
  omap (λ op, match op with WriteFile f c => Some (f, c) | _ => None end) l.

(** ** The verbosity of the command line *)



(** An export that sends GET calls only. *)
Definition export_reads_only {A} (m : X A) : Prop :=
  exports_only (λ rq, rq_method rq = "GET") (λ _, True) m.

(** An export that sends GET calls only and asks for no file operation. *)
Definition export_touches_nothing {A} (m : X A) : Prop :=
  exports_only (λ rq, rq_method rq = "GET") (λ _, False) m.
(** * Properties *)

(** ** Generic facts about comprehensions and JSON equality *)

Lemma json_eq_str (v : json) (r : string) :
  json_eq v (JStr r) = true ↔ v = JStr r.
Proof.
  destruct v; simpl; try (split; [discriminate | discriminate]).
  rewrite String.eqb_eq. split; [intros ->; reflexivity | congruence].
Qed.

(** Over dicts, a comprehension on the value of one field cannot raise
    when its test cannot. *)
Lemma filterM_dicts (key : string) (dflt : json) (p : json → bool)
    (P : item → Prop) `{!∀ it, Decision (P it)} (l : list item) :
  (∀ it, P it ↔ p (default dflt (assoc key it)) = true) →
  filterM (λ it, v ← py_get it key dflt; Ok (p v)) (JDict <$> l)
  = Ok (JDict <$> filter P l).
Proof.
  intros HP. induction l as [|it l IH]; [reflexivity|].
  rewrite fmap_cons, filter_cons. cbn [filterM]. rewrite IH.
  cbn [py_get mbind result_bind].
  destruct (p (default dflt (assoc key it))) eqn:Hp.
  - rewrite decide_True by (by apply HP). reflexivity.
  - rewrite decide_False; [reflexivity|]. rewrite HP, Hp. discriminate.
Qed.

(** ** The selector *)

Lemma has_key_assoc key r it : has_key key r it ↔ assoc key it = Some (JStr r).
Proof.
  unfold has_key. rewrite json_eq_str.
  destruct (assoc key it); simpl; split; congruence.
Qed.

Lemma mem_elem_of (x : string) (l : list string) : mem x l = true ↔ x ∈ l.
Proof.
  unfold mem. rewrite existsb_exists. setoid_rewrite <- list_elem_of_In.
  split.
  - intros (y & Hy & Heq). apply String.eqb_eq in Heq. by subst.
  - intros H. exists x. split; [done | apply String.eqb_refl].
Qed.

Lemma distinct_snoc (rules : list string) (r : string) :
  distinct (rules ++ [r])
  = if mem r (distinct rules) then distinct rules else distinct rules ++ [r].
Proof. unfold distinct. by rewrite foldl_app. Qed.

Lemma distinct_elem_of (rules : list string) (x : string) :
  x ∈ distinct rules ↔ x ∈ rules.
Proof.
  induction rules as [|r rules IH] using rev_ind; [done|].
  rewrite distinct_snoc. destruct (mem r (distinct rules)) eqn:Hm.
  - apply mem_elem_of in Hm. set_solver.
  - set_solver.
Qed.

Lemma distinct_NoDup (rules : list string) : NoDup (distinct rules).
Proof.
  induction rules as [|r rules IH] using rev_ind; [constructor|].
  rewrite distinct_snoc. destruct (mem r (distinct rules)) eqn:Hm; [done|].
  apply NoDup_app. split_and!; [done | | apply NoDup_singleton].
  intros x Hx Hx'. apply list_elem_of_singleton in Hx' as ->.
  apply mem_elem_of in Hx. congruence.
Qed.

Lemma matched_exact rv rm (config : list item) (key r : string) :
  matched_for rv rm (JDict <$> config) key LimitSelect.EXACT r
  = Ok (JDict <$> filter (has_key key r) config).
Proof.
  unfold matched_for, LimitSelect.EXACT. rewrite String.eqb_refl.
  by apply (filterM_dicts key JNull (λ v, json_eq v (JStr r))).
Qed.

Lemma filter_nil_not_Exists {A} (P : A → Prop) `{!∀ x, Decision (P x)} (l : list A) :
  filter P l = [] ↔ ¬ Exists P l.
Proof.
  rewrite <- Forall_Exists_neg. induction l as [|x l IH]; [by split; constructor|].
  rewrite filter_cons, Forall_cons. destruct (decide (P x)); [|tauto].
  split; [discriminate | tauto].
Qed.

Lemma append_new_dicts (key r : string) (ms out : list item) :
  Forall (has_key key r) ms →
  append_new key (JDict <$> ms) (JDict <$> out)
  = Ok (JDict <$> match ms with
                  | [] => out
                  | m :: _ =>
                      if decide (Exists (has_key key r) out) then out else out ++ [m]
                  end).
Proof.
  revert out. induction ms as [|m ms IH]; intros out Hms; [reflexivity|].
  apply Forall_cons in Hms as [Hm Hms].
  rewrite fmap_cons. cbn [append_new py_get mbind result_bind].
  pose proof Hm as Hm'. apply has_key_assoc in Hm'. rewrite Hm'. cbn [default].
  rewrite (filterM_dicts key JNull (λ v, json_eq v (JStr r)) (has_key key r)) by done.
  cbn [mbind result_bind].
  destruct (decide (Exists (has_key key r) out)) as [Hex|Hex].
  - destruct (filter (has_key key r) out) eqn:Hf.
    { apply filter_nil_not_Exists in Hf. contradiction. }
    rewrite fmap_cons, (IH out Hms).
    destruct ms; [reflexivity|]. by rewrite decide_True.
  - apply (filter_nil_not_Exists (has_key key r)) in Hex. rewrite Hex. cbn [fmap list_fmap].
    replace ((JDict <$> out) ++ [JDict m]) with (JDict <$> (out ++ [m]))
      by (by rewrite fmap_app).
    rewrite (IH (out ++ [m]) Hms).
    destruct ms; [reflexivity|].
    rewrite decide_True; [reflexivity|].
    apply Exists_app. right. by constructor.
Qed.

Lemma reduce_loop_exact rv rm (key : string) (config : list item)
    (rules : list string) (out : list item) :
  reduce_loop rv rm (JDict <$> config) key LimitSelect.EXACT rules (JDict <$> out)
  = Ok (JDict <$> foldl (exact_step key config) out rules).
Proof.
  revert out. induction rules as [|r rules IH]; intros out; [reflexivity|].
  cbn [reduce_loop foldl]. rewrite matched_exact. cbn [mbind result_bind].
  rewrite (append_new_dicts key r).
  - cbn [mbind result_bind]. apply IH.
  - apply Forall_forall. intros x Hx. by apply list_elem_of_filter in Hx as [? _].
Qed.

Section ExactSelection.

Variable key : string.
Variable config : list item.

Let sel (rules : list string) : list item := foldl (exact_step key config) [] rules.
Let matching (r : string) : Prop := Exists (has_key key r) config.

Lemma sel_snoc rules r : sel (rules ++ [r]) = exact_step key config (sel rules) r.
Proof. unfold sel. by rewrite foldl_app. Qed.

Lemma Exists_has_key (l : list item) (r : string) :
  Exists (has_key key r) l ↔ Some (JStr r) ∈ assoc key <$> l.
Proof.
  rewrite Exists_exists, list_elem_of_fmap.
  split; intros (it & H1 & H2); exists it.
  - split; [symmetry; by apply has_key_assoc | done].
  - split; [done | by apply has_key_assoc].
Qed.

(** The identifying values of the selection are the distinct rules that
    match something, in the order the rules were given. *)
Lemma sel_keys rules :
  assoc key <$> sel rules
  = (λ r, Some (JStr r)) <$> filter matching (distinct rules).
Proof.
  induction rules as [|r rules IH] using rev_ind; [reflexivity|].
  rewrite sel_snoc, distinct_snoc. unfold exact_step.
  assert (Hin : matching r →
            Exists (has_key key r) (sel rules) ↔ mem r (distinct rules) = true).
  { intros Hr. rewrite Exists_has_key, IH, mem_elem_of, list_elem_of_fmap.
    split.
    - intros (r' & [= ->] & Hr'). by apply list_elem_of_filter in Hr' as [_ ?].
    - intros Hd. exists r. split; [done|]. by apply list_elem_of_filter. }
  destruct (filter (has_key key r) config) as [|m ms] eqn:Hf.
  - apply (filter_nil_not_Exists (has_key key r)) in Hf.
    destruct (mem r (distinct rules)); [done|].
    rewrite filter_app, filter_cons, decide_False by done.
    by rewrite filter_nil, app_nil_r.
  - assert (Hr : matching r).
    { apply Exists_exists. exists m.
      assert (Hm : m ∈ filter (has_key key r) config) by (rewrite Hf; left).
      by apply list_elem_of_filter in Hm as [? ?]. }
    specialize (Hin Hr).
    destruct (decide (Exists (has_key key r) (sel rules))) as [Hex|Hex].
    + apply Hin in Hex. by rewrite Hex.
    + destruct (mem r (distinct rules)) eqn:Hm; [by destruct Hex; apply Hin|].
      rewrite filter_app, filter_cons, decide_True, filter_nil by done.
      rewrite !fmap_app, IH. cbn [fmap list_fmap]. do 2 f_equal.
      assert (Hm' : m ∈ filter (has_key key r) config) by (rewrite Hf; left).
      apply list_elem_of_filter in Hm' as [Hk _]. by apply has_key_assoc.
Qed.

(** Every selected item is the first item of the collection that carries
    one of the rules. *)
Lemma sel_first rules it :
  it ∈ sel rules →
  ∃ r, r ∈ rules ∧ head (filter (has_key key r) config) = Some it.
Proof.
  induction rules as [|r rules IH] using rev_ind.
  - cbn. by intros ?%not_elem_of_nil.
  - rewrite sel_snoc. unfold exact_step.
    destruct (filter (has_key key r) config) as [|m ms] eqn:Hf.
    + intros (r' & ? & ?)%IH. exists r'. split; [set_solver | done].
    + destruct (decide (Exists (has_key key r) (sel rules))).
      * intros (r' & ? & ?)%IH. exists r'. split; [set_solver | done].
      * intros [Hin | ->%list_elem_of_singleton]%elem_of_app.
        -- destruct (IH Hin) as (r' & ? & ?). exists r'. split; [set_solver | done].
        -- exists r. split; [set_solver | by rewrite Hf].
Qed.

End ExactSelection.

Lemma head_filter_first {A} (P : A → Prop) `{!∀ x, Decision (P x)} (l : list A) (x : A) :
  head (filter P l) = Some x →
  P x ∧ ∃ pre post, l = pre ++ x :: post ∧ Forall (λ y, ¬ P y) pre.
Proof.
  induction l as [|y l IH]; [discriminate|].
  rewrite filter_cons. destruct (decide (P y)) as [Hy|Hy].
  - intros [= ->]. split; [done|]. exists [], l. by split.
  - intros (Hx & pre & post & -> & Hpre)%IH. split; [done|].
    exists (y :: pre), post. split; [done | by constructor].
Qed.

(** C1.  Under the exact strategy and for a non-empty list of rules,
    [limit_reduce] returns items of the collection whose key field
    equals some rule (1), one for every rule that matches something (2),
    no two with the same identifying value (3); their identifying
    values are the distinct matching rules in the order the rules were
    given (4), and the item returned for a rule is the first item of the
    collection that carries it (5). *)
Theorem limit_reduce_exact rv rm (config : list item) (key r : string)
    (rs : list string) (sep : string) :
  ∃ out : list item,
    limit_reduce rv rm (JList (JDict <$> config)) key (LList (r :: rs)) sep
      (Some LimitSelect.EXACT) = Ok (JList (JDict <$> out))
    ∧ (∀ it, it ∈ out →
         it ∈ config ∧ ∃ r', r' ∈ r :: rs ∧ assoc key it = Some (JStr r'))
    ∧ (∀ it r', it ∈ config → r' ∈ r :: rs → assoc key it = Some (JStr r') →
         ∃ it', it' ∈ out ∧ assoc key it' = Some (JStr r'))
    ∧ NoDup (assoc key <$> out)
    ∧ assoc key <$> out
      = (λ r', Some (JStr r'))
          <$> filter (λ r', Exists (has_key key r') config) (distinct (r :: rs))
    ∧ (∀ it, it ∈ out →
         ∃ pre post, config = pre ++ it :: post
                     ∧ Forall (λ x, assoc key x ≠ assoc key it) pre).
Proof.
  exists (foldl (exact_step key config) [] (r :: rs)).
  assert (Hfirst : ∀ it, it ∈ foldl (exact_step key config) [] (r :: rs) →
            ∃ r', r' ∈ r :: rs ∧ has_key key r' it
                  ∧ ∃ pre post, config = pre ++ it :: post
                                ∧ Forall (λ y, ¬ has_key key r' y) pre).
  { intros it (r' & Hr' & Hhd)%sel_first.
    apply head_filter_first in Hhd as (Hk & Hsplit). eauto. }
  split_and!.
  - unfold limit_reduce. cbn [String.eqb LimitSelect.EXACT mbind result_bind].
    change (@nil json) with (JDict <$> @nil item).
    by rewrite (reduce_loop_exact rv rm key config (r :: rs) []).
  - intros it (r' & Hr' & Hk & pre & post & -> & _)%Hfirst. split.
    + apply elem_of_app. right. left.
    + exists r'. split; [done | by apply has_key_assoc].
  - intros it r' Hit Hr' Hk.
    assert (Hin : Some (JStr r')
                  ∈ assoc key <$> foldl (exact_step key config) [] (r :: rs)).
    { rewrite sel_keys. apply list_elem_of_fmap. exists r'. split; [done|].
      apply list_elem_of_filter. split.
      - apply Exists_exists. exists it. split; [done | by apply has_key_assoc].
      - by apply distinct_elem_of. }
    apply list_elem_of_fmap in Hin as (it' & ? & ?). by exists it'.
  - rewrite sel_keys. apply NoDup_fmap_2.
    + intros ? ? [= ->]. reflexivity.
    + apply NoDup_filter, distinct_NoDup.
  - apply sel_keys.
  - intros it (r' & Hr' & Hk & pre & post & -> & Hpre)%Hfirst.
    exists pre, post. split; [done|].
    apply has_key_assoc in Hk. rewrite Hk.
    eapply Forall_impl; [exact Hpre|]. intros x Hx Heq. by apply Hx, has_key_assoc.
Qed.

(** C10.  With an empty list of rules (or none at all), [limit_reduce]
    returns the collection it was given, whatever the key, the
    separator and the strategy. *)
Theorem limit_reduce_passthrough rv rm (items : list json) (key sep : string)
    (select : option string) :
  limit_reduce rv rm (JList items) key (LList []) sep select = Ok (JList items)
  ∧ limit_reduce rv rm (JList items) key LNone sep select = Ok (JList items).
Proof. split; reflexivity. Qed.

(** The default strategy is [exact], and a string of rules stands for
    the list of its pieces. *)
Lemma limit_reduce_default_exact rv rm config key limits sep :
  limit_reduce rv rm config key limits sep None
  = limit_reduce rv rm config key limits sep (Some LimitSelect.EXACT).
Proof. reflexivity. Qed.

Lemma limit_reduce_split rv rm config key s sep rules select :
  PyStr.split s sep = Ok rules →
  limit_reduce rv rm config key (LStr s) sep select
  = limit_reduce rv rm config key (LList rules) sep select.
Proof. intros Hs. unfold limit_reduce. by rewrite Hs. Qed.

(** A string of rules is never an empty list of rules: even the empty
    string splits into one (empty) rule. *)
Lemma split_go_nonempty (sep s : string) (skip : nat) (cur : string) :
  PyStr.split_go sep s skip cur ≠ [].
Proof.
  revert skip cur. induction s as [|c s IH]; intros skip cur; [done|].
  cbn [PyStr.split_go]. destruct skip; [|apply IH].
  destruct (String.prefix sep (String c s)); [done | apply IH].
Qed.

(** A dict that lacks the key field stops every strategy but [exact]:
    the field reads as [None], which supports neither [in], nor
    [startswith], nor [endswith], nor a regular-expression match. *)
Lemma filterM_raises {A} (p : A → result bool) (l : list A) (x : A) :
  x ∈ l → (∃ e, p x = Raise e) → ∃ e, filterM p l = Raise e.
Proof.
  intros Hx [e He]. induction l as [|y l IH]; [by apply not_elem_of_nil in Hx|].
  cbn [filterM]. destruct (p y) as [b|e'] eqn:Hy; [|by exists e'].
  cbn [mbind result_bind].
  apply elem_of_cons in Hx as [->|Hx]; [congruence|].
  destruct (IH Hx) as [e'' ->]. by exists e''.
Qed.

Lemma missing_key_raises rv rm (items : list json) (d : item) (key r : string)
    (rs : list string) (sep select : string) :
  JDict d ∈ items → assoc key d = None →
  select ∈ [LimitSelect.CONTAINS; LimitSelect.STARTSWITH;
            LimitSelect.ENDSWITH; LimitSelect.REGEX] →
  ∃ e, limit_reduce rv rm (JList items) key (LList (r :: rs)) sep (Some select)
       = Raise e.
Proof.
  intros Hd Hk Hsel.
  assert (Hm : ∃ e, matched_for rv rm items key select r = Raise e).
  { unfold matched_for.
    repeat (apply elem_of_cons in Hsel as [->|Hsel]);
      [| | | |by apply not_elem_of_nil in Hsel];
      cbn [String.eqb Ascii.eqb Bool.eqb LimitSelect.CONTAINS LimitSelect.EXACT
           LimitSelect.STARTSWITH LimitSelect.ENDSWITH LimitSelect.REGEX];
      (eapply filterM_raises; [exact Hd|]);
      cbn [py_get mbind result_bind]; rewrite Hk; cbn; eauto.
    unfold py_re_match. destruct (rv r); eauto. }
  destruct Hm as [e He]. exists e.
  unfold limit_reduce.
  repeat (apply elem_of_cons in Hsel as [->|Hsel]);
    [| | | |by apply not_elem_of_nil in Hsel];
    cbn [String.eqb Ascii.eqb Bool.eqb LimitSelect.CONTAINS
         LimitSelect.STARTSWITH LimitSelect.ENDSWITH LimitSelect.REGEX
         mbind result_bind reduce_loop];
    by rewrite He.
Qed.

(** C3.  The code does not tolerate an item without the key field: on
    the collection [[{"id": "x"}]] with the rule ["x"] and the key
    ["name"], the contains strategy ends in a [TypeError], startswith
    and endswith in an [AttributeError], and regex in an error as well
    (of the pattern, or a [TypeError]); only exact returns. *)
Theorem limit_reduce_missing_key_fails rv rm :
  let config := JList [JDict [("id", JStr "x")]] in
  limit_reduce rv rm config "name" (LList ["x"]) "," (Some "contains") = Raise TypeError
  ∧ limit_reduce rv rm config "name" (LList ["x"]) "," (Some "startswith")
    = Raise AttributeError
  ∧ limit_reduce rv rm config "name" (LList ["x"]) "," (Some "endswith")
    = Raise AttributeError
  ∧ (∃ e, limit_reduce rv rm config "name" (LList ["x"]) "," (Some "regex") = Raise e)
  ∧ limit_reduce rv rm config "name" (LList ["x"]) "," (Some "exact") = Ok (JList []).
Proof.
  split_and!; try reflexivity.
  eapply (missing_key_raises rv rm _ [("id", JStr "x")]); [left | reflexivity |].
  unfold LimitSelect.REGEX. set_solver.
Qed.

(** ** An unsupported strategy *)

Lemma unsupported_not_member (select : string) :
  select ∉ LimitSelect.list →
  String.eqb select LimitSelect.EXACT = false
  ∧ String.eqb select LimitSelect.CONTAINS = false
  ∧ String.eqb select LimitSelect.STARTSWITH = false
  ∧ String.eqb select LimitSelect.ENDSWITH = false
  ∧ String.eqb select LimitSelect.REGEX = false.
Proof.
  intros Hn. split_and!; apply String.eqb_neq; intros ->; apply Hn;
    unfold LimitSelect.list; set_solver.
Qed.

Lemma reduce_loop_unsupported rv rm (items : list json) (key select r : string)
    (rs : list string) (out : list json) :
  select ∉ LimitSelect.list →
  reduce_loop rv rm items key select (r :: rs) out = Raise (unsupported_mode select).
Proof.
  intros (H1 & H2 & H3 & H4 & H5)%unsupported_not_member.
  cbn [reduce_loop]. unfold matched_for. by rewrite H1, H2, H3, H4, H5.
Qed.

Lemma limit_reduce_unsupported rv rm (items : list json) (key sep select : string)
    (limits : limits_arg) :
  limits_truthy limits = true → sep ≠ "" →
  select ≠ "" → select ∉ LimitSelect.list →
  limit_reduce rv rm (JList items) key limits sep (Some select)
  = Raise (unsupported_mode select).
Proof.
  intros Hl Hsep Hne Hsel. unfold limit_reduce.
  apply String.eqb_neq in Hne. rewrite Hne.
  destruct limits as [|s|[|r rs]]; try discriminate.
  - unfold PyStr.split. destruct sep; [done|].
    cbn [mbind result_bind].
    destruct (PyStr.split_go _ s 0 "") as [|r rs] eqn:Hs;
      [by apply split_go_nonempty in Hs|].
    by rewrite reduce_loop_unsupported.
  - cbn [mbind result_bind]. by rewrite reduce_loop_unsupported.
Qed.

Lemma api_fetch_sends E self (url_path : string) (log : list request) :
  api_fetch E self url_path log
  = let rq := Request "GET" (api_url self +:+ url_path) None in
    match remote E log rq with
    | Ok (s, b) =>
        if Z.eqb s 401
        then (Raise (Nexus3CtlException "Could not authenticate against API, got 401"),
              log ++ [rq])
        else (Ok (HttpResponse s b), log ++ [rq])
    | Raise e => (Raise e, log ++ [rq])
    end.
Proof.
  unfold api_fetch, api_client. cbn [default].
  destruct (dry_mode self); cbn [String.eqb Ascii.eqb Bool.eqb];
    unfold mbind, M_bind, send; cbn zeta;
    destruct (remote E log _) as [[s b]|e]; cbn [fmap result_fmap fst snd status_code];
    try reflexivity; by destruct (Z.eqb s 401).
Qed.

(** C8, as the code has it.  A non-empty strategy outside the five of
    [LimitSelect], with a non-empty list of rules, makes [limit_reduce]
    fail with a [Nexus3CtlException] whose message lists the five names;
    in the listing operation [api_get_repos] the failure comes after the
    GET of the listing has been sent and answered 200 with a JSON list. *)
Theorem unsupported_strategy (select : string) :
  select ≠ "" → select ∉ LimitSelect.list →
  unsupported_mode select
  = Nexus3CtlException
      ("Unsupported mode '" +:+ select
       +:+ "', please choose one of: exact,contains,startswith,endswith,regex")
  ∧ (∀ rv rm items key r rs sep,
       limit_reduce rv rm (JList items) key (LList (r :: rs)) sep (Some select)
       = Raise (unsupported_mode select))
  ∧ (∀ E self limits items log,
       limits_truthy limits = true →
       let rq := Request "GET" (api_url self +:+ "repositories") None in
       remote E log rq = Ok (200, Some (JList items)) →
       api_get_repos E self limits (Some select) log
       = (Raise (unsupported_mode select), log ++ [rq])).
Proof.
  intros Hne Hsel. split_and!.
  - reflexivity.
  - intros. unfold limit_reduce.
    apply String.eqb_neq in Hne. rewrite Hne. cbn [mbind result_bind].
    by rewrite reduce_loop_unsupported.
  - intros E self limits items log Hl rq Hrq.
    unfold api_get_repos, api_get_collection.
    unfold mbind at 1. unfold M_bind. rewrite api_fetch_sends. cbn zeta.
    fold rq. rewrite Hrq. cbn [Z.eqb Pos.eqb status_code].
    unfold mbind, M_bind, lift. cbn [response_json]. rewrite Hl.
    unfold select_by_name. by rewrite limit_reduce_unsupported.
Qed.

Lemma unsupported_strategy_witness :
  api_get_repos demo_env (demo_app true) (LList ["hosted"]) (Some "glob") []
  = (Raise (unsupported_mode "glob"),
     [Request "GET" "http://nexus/service/rest/v1/repositories" None]).
Proof.
  refine (proj2 (proj2 (unsupported_strategy "glob" _ _))
            demo_env (demo_app true) (LList ["hosted"]) [] [] _ _).
  - discriminate.
  - unfold LimitSelect.list. vm_compute. intros H.
    repeat (apply elem_of_cons in H as [H|H]; [discriminate|]).
    by apply not_elem_of_nil in H.
  - reflexivity.
  - reflexivity.
Defined.

(** C8, as stated, fails: with the rule ["a"] and the strategy ["bogus"]
    the error is raised only once the GET of the listing has gone out;
    and when the server answers 404 no error is raised at all. *)
Lemma unsupported_strategy_after_call :
  api_get_repos demo_env (demo_app false) (LStr "a") (Some "bogus") []
  = (Raise (Nexus3CtlException
       "Unsupported mode 'bogus', please choose one of: exact,contains,startswith,endswith,regex"),
     [Request "GET" "http://nexus/service/rest/v1/repositories" None])
  ∧ api_get_repos demo_env_404 (demo_app false) (LStr "a") (Some "bogus") []
    = (Ok (JDict []),
       [Request "GET" "http://nexus/service/rest/v1/repositories" None]).
Proof. split; reflexivity. Qed.

(** ** Strings *)

Example split_examples :
  PyStr.split "a,b,,c" "," = Ok ["a"; "b"; ""; "c"]
  ∧ PyStr.split "" "," = Ok [""]
  ∧ PyStr.split "a--b-c--" "--" = Ok ["a"; "b-c"; ""]
  ∧ PyStr.split "aaa" "aa" = Ok [""; "a"]
  ∧ PyStr.split "a,b" "" = Raise ValueError.
Proof. split_and!; reflexivity. Qed.

Example affix_examples :
  PyStr.endswith "maven-hosted" "hosted" = true
  ∧ PyStr.endswith "hosted" "maven-hosted" = false
  ∧ PyStr.startswith "maven-hosted" "maven" = true
  ∧ PyStr.contains "proxy" "npm-proxy__npmjs" = true
  ∧ PyStr.contains "" "" = true
  ∧ PyStr.contains "hosted" "host" = false.
Proof. split_and!; reflexivity. Qed.

(** ** The toggle-list resolver *)

(** C6, as the code has it.  For a list expression and a default token
    [d], [control_list] prepends [d] if and only if [d] occurs nowhere
    in the expression: the caller's list is then [d :: config], and
    otherwise it is left as it was, wherever [d] stands in it.  The
    tokens walked are those of the list so obtained. *)
Theorem control_list_default_token (config : list string)
    (defaults : option (list string)) (delim d : string) :
  ∃ r, control_list (EList config) defaults delim (Some d) = Ok r
    ∧ (d ∉ config → co_config r = EList (d :: config))
    ∧ (d ∈ config → co_config r = EList config)
    ∧ ∀ tokens, co_config r = EList tokens →
        co_result r
        = list_to_set
            (deref (foldl control_step (ClState (default [] defaults) (OutOwn []))
                      tokens)).
Proof.
  eexists. split; [reflexivity|]. cbn [co_config co_result with_default].
  split_and!.
  - intros Hd. destruct (mem d config) eqn:Hm; [|done].
    by apply mem_elem_of in Hm.
  - intros Hd. apply mem_elem_of in Hd. by rewrite Hd.
  - intros tokens [= <-]. by destruct defaults.
Qed.

(** C6, as stated, fails: in [["a", "ALL"]] the default token ["ALL"] is
    not the first token, and yet it is not prepended. *)
Lemma default_token_not_prepended :
  head ["a"; "ALL"] ≠ Some "ALL"
  ∧ (∃ r, control_list (EList ["a"; "ALL"]) (Some ["x"]) "," (Some "ALL") = Ok r
          ∧ co_config r = EList ["a"; "ALL"])
  ∧ with_default ["a"; "ALL"] (Some "ALL") ≠ prepend_unless_first ["a"; "ALL"] "ALL".
Proof.
  split_and!; [discriminate | | discriminate].
  eexists. split; reflexivity.
Qed.

(** C7.  ["ALL"] does not copy: [out = defaults] makes the accumulator
    the caller's list itself, and the removal that follows is made in
    that list.  After [control_list("-x", defaults=["x", "y"])] the
    caller's [defaults] is [["y"]]. *)
Theorem control_list_mutates_defaults :
  ∃ r, control_list (EStr "-x") (Some ["x"; "y"]) "," (Some "ALL") = Ok r
    ∧ co_result r = {["y"]}
    ∧ co_defaults r = Some ["y"]
    ∧ co_defaults r ≠ Some ["x"; "y"].
Proof. eexists. split_and!; [reflexivity | reflexivity | reflexivity | discriminate]. Qed.

(** The two examples of the specification. *)
Example resolve_example_none :
  co_result <$> control_list (EStr "a,-a,+b") (Some []) "," (Some "NONE")
  = Ok {["b"]}.
Proof. reflexivity. Qed.

Example resolve_example_all :
  co_result <$> control_list (EStr "-x") (Some ["x"; "y"]) "," (Some "ALL")
  = Ok {["y"]}.
Proof. reflexivity. Qed.

Example resolve_example_explicit_all :
  co_result <$> control_list (EStr "ALL") (Some ["a"; "b"; "c"]) "," None
  = Ok {["a"; "b"; "c"]}.
Proof. reflexivity. Qed.

(** C2.  A second ["ALL"] does not reset the accumulator to the
    defaults the caller gave: the first one made the accumulator the
    defaults list itself, so the removal of ["x"] is still there.  The
    claim gives [{"x", "y"}] for ["ALL,-x,ALL"]; the code returns
    [{"y"}]. *)
Theorem control_list_second_all :
  co_result <$> control_list (EStr "ALL,-x,ALL") (Some ["x"; "y"]) "," (Some "ALL")
  = Ok {["y"]}
  ∧ ({["y"]} : gset string) ≠ {["x"; "y"]}.
Proof.
  split; [reflexivity|].
  intros Heq. assert (H : "x" ∈ ({["y"]} : gset string)) by (rewrite Heq; set_solver).
  apply elem_of_singleton in H. discriminate.
Qed.

(** *** Agreement with the evaluation on sets

    As long as ["ALL"] is evaluated at most once and the defaults hold
    no name twice, the loop of [control_list] computes the set that the
    specification describes. *)

Lemma elem_of_remove_first (x y : string) (l : list string) :
  NoDup l → y ∈ remove_first x l ↔ y ∈ l ∧ y ≠ x.
Proof.
  induction l as [|a l IH]; intros Hnd; [set_solver|].
  apply NoDup_cons in Hnd as [Ha Hnd]. cbn [remove_first].
  destruct (String.eqb x a) eqn:Hxa.
  - apply String.eqb_eq in Hxa as ->. set_solver.
  - apply String.eqb_neq in Hxa. rewrite !elem_of_cons, IH by done.
    split; [intros [->|[? ?]]; split; auto; congruence | tauto].
Qed.

Lemma NoDup_remove_first (x : string) (l : list string) :
  NoDup l → NoDup (remove_first x l).
Proof.
  induction l as [|a l IH]; intros Hnd; [done|].
  pose proof Hnd as Hnd'. apply NoDup_cons in Hnd as [Ha Hnd]. cbn [remove_first].
  destruct (String.eqb x a); [done|].
  apply NoDup_cons. split; [|by apply IH].
  rewrite elem_of_remove_first by done. tauto.
Qed.

Lemma control_step_cases (st : cl_state) (conf : string) :
  control_step st conf =
  if String.eqb conf "" then st
  else if String.eqb conf "ALL" then ClState (st_defaults st) OutDefaults
  else if String.eqb conf "NONE" then ClState (st_defaults st) (OutOwn [])
  else if PyStr.startswith conf "-" then
    if mem (PyStr.tail conf) (deref st)
    then update st (remove_first (PyStr.tail conf) (deref st)) else st
  else
    let name := if PyStr.startswith conf "+" then PyStr.tail conf else conf in
    if mem name (deref st) then st else update st (deref st ++ [name]).
Proof.
  unfold control_step.
  destruct (String.eqb conf "") eqn:H0; [done|].
  destruct (String.eqb conf "ALL") eqn:H1.
  { apply String.eqb_eq in H1 as ->. reflexivity. }
  destruct (String.eqb conf "NONE") eqn:H2.
  { apply String.eqb_eq in H2 as ->. reflexivity. }
  destruct (PyStr.startswith conf "-"); [reflexivity|].
  destruct (PyStr.startswith conf "+"); reflexivity.
Qed.

Lemma deref_update (st : cl_state) (l : list string) : deref (update st l) = l.
Proof. unfold deref, update. by destruct (st_out st). Qed.

Lemma update_own (st : cl_state) (l l' : list string) :
  st_out st = OutOwn l' →
  st_defaults (update st l) = st_defaults st ∧ st_out (update st l) = OutOwn l.
Proof. unfold update. by intros ->. Qed.

Lemma control_fold_refines (dflt rest : list string) (st : cl_state) :
  NoDup dflt → NoDup (deref st) →
  (length (filter (λ t, t = "ALL") rest) ≤ 1)%nat →
  ("ALL" ∈ rest → st_defaults st = dflt ∧ ∃ l, st_out st = OutOwn l) →
  list_to_set (deref (foldl control_step st rest))
  = foldl (resolve_step dflt) (list_to_set (deref st)) rest.
Proof.
  intros Hd. revert st. induction rest as [|conf rest IH]; intros st Hnd Hone Hall;
    [reflexivity|].
  cbn [foldl]. rewrite filter_cons in Hone.
  assert (Hall' : ∀ st', conf ≠ "ALL" →
            (st_defaults st = dflt → (∃ l, st_out st = OutOwn l) →
             st_defaults st' = dflt ∧ ∃ l, st_out st' = OutOwn l) →
            "ALL" ∈ rest → st_defaults st' = dflt ∧ ∃ l, st_out st' = OutOwn l).
  { intros st' _ Hst' Hin. destruct Hall as [? ?]; [by right | by apply Hst']. }
  assert (Hone' : conf ≠ "ALL" → (length (filter (λ t, t = "ALL") rest) ≤ 1)%nat).
  { intros Hc. by rewrite decide_False in Hone. }
  rewrite control_step_cases. unfold resolve_step at 2.
  destruct (String.eqb conf "") eqn:H0; [apply String.eqb_eq in H0 as ->; by apply IH; auto|].
  destruct (String.eqb conf "ALL") eqn:H1.
  { apply String.eqb_eq in H1 as ->. rewrite decide_True in Hone by done.
    cbn [length] in Hone.
    assert (Hno : "ALL" ∉ rest).
    { intros Hin. assert (Hf : "ALL" ∈ filter (λ t, t = "ALL") rest)
        by (by apply list_elem_of_filter).
      destruct (filter (λ t, t = "ALL") rest); [by apply not_elem_of_nil in Hf|].
      cbn [length] in Hone. lia. }
    destruct Hall as [Hdf _]; [left|].
    rewrite IH; [by rewrite Hdf | by cbn; rewrite Hdf | lia | done]. }
  apply String.eqb_neq in H1.
  destruct (String.eqb conf "NONE") eqn:H2.
  { rewrite IH; [reflexivity | constructor | auto |].
    apply Hall'; [done|]. cbn. eauto. }
  destruct (PyStr.startswith conf "-").
  - destruct (mem (PyStr.tail conf) (deref st)) eqn:Hm.
    + rewrite IH.
      * f_equal. rewrite deref_update. apply set_eq. intros y.
        rewrite elem_of_difference, !elem_of_list_to_set, elem_of_remove_first by done.
        set_solver.
      * rewrite deref_update. by apply NoDup_remove_first.
      * auto.
      * apply Hall'; [done|]. intros ? [l Hl].
        destruct (update_own st (remove_first (PyStr.tail conf) (deref st)) l Hl)
          as [-> ->]. eauto.
    + rewrite IH by auto. f_equal.
      assert (PyStr.tail conf ∉ deref st).
      { intros ?%mem_elem_of. congruence. }
      set_solver.
  - set (name := if PyStr.startswith conf "+" then PyStr.tail conf else conf).
    assert (Hstep : (if PyStr.startswith conf "+"
                     then list_to_set (deref st) ∪ {[PyStr.tail conf]}
                     else list_to_set (deref st) ∪ {[conf]})
                    = (list_to_set (deref st) ∪ {[name]} : gset string)).
    { unfold name. by destruct (PyStr.startswith conf "+"). }
    rewrite Hstep. cbn zeta.
    destruct (mem name (deref st)) eqn:Hm.
    + rewrite IH by auto. f_equal. apply mem_elem_of in Hm. set_solver.
    + assert (Hn : name ∉ deref st) by (intros ?%mem_elem_of; congruence).
      rewrite IH.
      * f_equal. rewrite deref_update. set_solver.
      * rewrite deref_update. apply NoDup_app. split_and!; [done | | apply NoDup_singleton].
        intros x Hx ->%list_elem_of_singleton. done.
      * auto.
      * apply Hall'; [done|]. intros ? [l Hl].
        destruct (update_own st (deref st ++ [name]) l Hl) as [-> ->]. eauto.
Qed.

Lemma control_list_refines (tokens defaults : list string) (delim : string)
    (default : option string) :
  NoDup defaults →
  (length (filter (λ t, t = "ALL") (with_default tokens default)) ≤ 1)%nat →
  co_result <$> control_list (EList tokens) (Some defaults) delim default
  = Ok (resolve (with_default tokens default) defaults).
Proof.
  intros Hnd Hone. unfold control_list, resolve.
  cbn [mbind result_bind fmap result_fmap co_result].
  f_equal. rewrite (control_fold_refines defaults); [reflexivity | done | constructor | done |].
  cbn. eauto.
Qed.

(** ** Import ordering *)

Section Sorting.

Context {A : Type}.

Let le_key (p q : Z * A) : Prop := p.1 ≤ q.1.

Lemma insert_keyed_perm (k : Z) (x : A) (l : list (Z * A)) :
  insert_keyed k x l ≡ₚ (k, x) :: l.
Proof.
  induction l as [|[k' y] l IH]; [done|]. cbn [insert_keyed].
  destruct (Z.leb k k'); [done|]. rewrite IH. apply Permutation_swap.
Qed.

Lemma sort_keyed_perm (l : list (Z * A)) : sort_keyed l ≡ₚ l.
Proof.
  induction l as [|[k x] l IH]; [done|].
  unfold sort_keyed in *. cbn [foldr fst snd].
  by rewrite insert_keyed_perm, IH.
Qed.

Lemma insert_keyed_sorted (k : Z) (x : A) (l : list (Z * A)) :
  StronglySorted le_key l → StronglySorted le_key (insert_keyed k x l).
Proof.
  induction 1 as [|[k' y] l Hl IH Hall]; [repeat constructor|].
  cbn [insert_keyed]. destruct (Z.leb k k') eqn:Hk.
  - apply Z.leb_le in Hk. constructor; [by constructor|].
    constructor; [done|]. eapply Forall_impl; [exact Hall|].
    intros [k'' z]. unfold le_key. cbn. lia.
  - apply Z.leb_gt in Hk. constructor; [done|].
    rewrite insert_keyed_perm. constructor; [|done]. unfold le_key. cbn. lia.
Qed.

Lemma sort_keyed_sorted (l : list (Z * A)) : StronglySorted le_key (sort_keyed l).
Proof.
  induction l as [|[k x] l IH]; [constructor|].
  unfold sort_keyed in *. cbn [foldr fst snd]. by apply insert_keyed_sorted.
Qed.

(** The sort is stable: the elements of one key keep their order. *)
Lemma insert_keyed_stable (k k' : Z) (x : A) (l : list (Z * A)) :
  filter (λ p, p.1 = k) (insert_keyed k' x l) = filter (λ p, p.1 = k) ((k', x) :: l).
Proof.
  induction l as [|[k'' y] l IH]; [done|]. cbn [insert_keyed].
  destruct (Z.leb k' k'') eqn:Hk; [done|]. apply Z.leb_gt in Hk.
  rewrite filter_cons, IH, !filter_cons. cbn [fst].
  destruct (decide (k'' = k)) as [->|?]; [|done].
  destruct (decide (k' = k)); [lia | done].
Qed.

Lemma sort_keyed_stable (k : Z) (l : list (Z * A)) :
  filter (λ p, p.1 = k) (sort_keyed l) = filter (λ p, p.1 = k) l.
Proof.
  induction l as [|[k' x] l IH]; [done|].
  unfold sort_keyed in *. cbn [foldr fst snd].
  by rewrite insert_keyed_stable, !filter_cons, IH.
Qed.

(** In a sorted list a smaller key stands at a smaller index. *)
Lemma sorted_lookup_lt (l : list (Z * A)) (i j : nat) (p q : Z * A) :
  StronglySorted le_key l →
  l !! i = Some p → l !! j = Some q → p.1 < q.1 → (i < j)%nat.
Proof.
  intros Hs. revert i j. induction Hs as [|r l Hl IH Hall]; intros i j Hi Hj Hlt.
  - by rewrite lookup_nil in Hi.
  - destruct i as [|i], j as [|j]; cbn in Hi, Hj.
    + simplify_eq. lia.
    + lia.
    + simplify_eq. apply list_elem_of_lookup_2 in Hi.
      rewrite Forall_forall in Hall. specialize (Hall _ Hi). unfold le_key in Hall. lia.
    + apply -> Nat.succ_lt_mono. by apply IH.
Qed.

Lemma mapM_Ok_total {B} (f : A → B) (l : list A) :
  mapM (λ x, Ok (f x)) l = Ok (f <$> l).
Proof. induction l as [|x l IH]; [done|]. cbn [mapM]. by rewrite IH. Qed.

Lemma mapM_Ok_inv {B} (key : A → result B) (l : list A) (keys : list B) :
  mapM key l = Ok keys → Forall2 (λ x k, key x = Ok k) l keys.
Proof.
  revert keys. induction l as [|x l IH]; intros keys; cbn [mapM].
  - intros [= <-]. constructor.
  - destruct (key x) as [k|] eqn:Hk; [|discriminate]. cbn [mbind result_bind].
    destruct (mapM key l) as [ks|]; [|discriminate]. cbn [mbind result_bind].
    intros [= <-]. constructor; [done | by apply IH].
Qed.

Lemma mapM_Ok_all {B} (key : A → result B) (l : list A) :
  Forall (λ x, ∃ k, key x = Ok k) l → ∃ keys, mapM key l = Ok keys.
Proof.
  induction 1 as [|x l [k Hk] _ [ks IH]]; [by exists []|].
  exists (k :: ks). cbn [mapM]. by rewrite Hk, IH.
Qed.

Lemma zip_keys (key : A → result Z) (l : list A) (keys : list Z) :
  Forall2 (λ x k, key x = Ok k) l keys →
  (zip keys l).*2 = l ∧ Forall (λ p, key p.2 = Ok p.1) (zip keys l).
Proof.
  induction 1 as [|x k l keys Hk _ [IH1 IH2]]; [by split|].
  cbn. split; [by rewrite IH1 | by constructor].
Qed.

(** What [sorted(l, key=...)] returns when no key raises: a rearrangement
    of [l] in which an element with a smaller key stands before any
    element with a larger one. *)
Lemma py_sorted_spec (key : A → result Z) (l : list A) (keys : list Z) :
  mapM key l = Ok keys →
  ∃ out, py_sorted key l = Ok out
    ∧ out ≡ₚ l
    ∧ ∀ i j a b ka kb,
        out !! i = Some a → out !! j = Some b →
        key a = Ok ka → key b = Ok kb → ka < kb → (i < j)%nat.
Proof.
  intros Hkeys. unfold py_sorted. rewrite Hkeys. cbn [mbind result_bind].
  eexists. split; [reflexivity|].
  apply mapM_Ok_inv, zip_keys in Hkeys as [Hsnd Hdec].
  split.
  - by rewrite sort_keyed_perm, Hsnd.
  - intros i j a b ka kb Hi Hj Ha Hb Hlt.
    apply list_lookup_fmap_Some in Hi as ([ka' a'] & -> & Hi).
    apply list_lookup_fmap_Some in Hj as ([kb' b'] & -> & Hj).
    assert (Hdec' : Forall (λ p, key p.2 = Ok p.1) (sort_keyed (zip keys l)))
      by (by rewrite sort_keyed_perm).
    rewrite Forall_forall in Hdec'.
    pose proof (Hdec' _ (list_elem_of_lookup_2 _ _ _ Hi)) as Ha'.
    pose proof (Hdec' _ (list_elem_of_lookup_2 _ _ _ Hj)) as Hb'.
    cbn in Ha, Hb, Ha', Hb'.
    rewrite Ha in Ha'. rewrite Hb in Hb'. injection Ha' as <-. injection Hb' as <-.
    eapply sorted_lookup_lt; [apply sort_keyed_sorted | exact Hi | exact Hj | cbn; lia].
Qed.

End Sorting.

(** C5.  The order in which [cli_import_repos] takes the files is a
    rearrangement of the files found, in which every file whose name
    contains ["hosted"] comes before every file whose name does not,
    and every file whose name contains ["proxy"] comes before every
    file whose name contains neither. *)
Theorem repo_import_order (files : list string) :
  ∃ out, py_sorted (λ f, Ok (nexus_sort_repos f)) files = Ok out
    ∧ out ≡ₚ files
    ∧ ∀ i j a b, out !! i = Some a → out !! j = Some b →
        (PyStr.contains "hosted" a = true →
         PyStr.contains "hosted" b = false → (i < j)%nat)
        ∧ (PyStr.contains "proxy" a = true →
           PyStr.contains "hosted" b = false →
           PyStr.contains "proxy" b = false → (i < j)%nat).
Proof.
  destruct (py_sorted_spec (λ f, Ok (nexus_sort_repos f)) files
              (nexus_sort_repos <$> files) (mapM_Ok_total _ _))
    as (out & Hout & Hperm & Hord).
  exists out. split_and!; [done | done |].
  intros i j a b Hi Hj.
  pose proof (Hord i j a b _ _ Hi Hj eq_refl eq_refl) as Hlt.
  unfold nexus_sort_repos in Hlt. split.
  - intros Ha Hb. rewrite Ha, Hb in Hlt. apply Hlt.
    destruct (PyStr.contains "proxy" b); lia.
  - intros Ha Hb Hb'. rewrite Ha, Hb, Hb' in Hlt. apply Hlt.
    destruct (PyStr.contains "hosted" a); lia.
Qed.

Lemma nexus_sort_roles_lists (d : item) (rs ps : list json) :
  assoc "roles" d = Some (JList rs) → assoc "privileges" d = Some (JList ps) →
  nexus_sort_roles (JDict d)
  = Ok (Z.of_nat (length rs) * 3 + Z.of_nat (length ps)).
Proof.
  intros Hr Hp. unfold nexus_sort_roles. cbn [py_get mbind result_bind].
  by rewrite Hr, Hp.
Qed.

(** C9.  When the score [len(roles) * 3 + len(privileges)] of every
    role can be computed, the order in which [cli_import_roles] takes
    the roles is a rearrangement of the roles read, in which a role
    with a smaller score comes before any role with a larger one; the
    score of a role whose two fields are lists is given by the lengths
    of the lists, so a role with [roles=[]] and [privileges=[]] (score
    0) comes before a role with [roles=["x"]] and [privileges=[]]
    (score 3). *)
Theorem role_import_order (items : list json) :
  Forall (λ it, ∃ s, nexus_sort_roles it = Ok s) items →
  ∃ out, py_sorted nexus_sort_roles items = Ok out
    ∧ out ≡ₚ items
    ∧ (∀ i j a b sa sb,
         out !! i = Some a → out !! j = Some b →
         nexus_sort_roles a = Ok sa → nexus_sort_roles b = Ok sb →
         sa < sb → (i < j)%nat)
    ∧ (∀ d rs ps,
         assoc "roles" d = Some (JList rs) → assoc "privileges" d = Some (JList ps) →
         nexus_sort_roles (JDict d)
         = Ok (Z.of_nat (length rs) * 3 + Z.of_nat (length ps)))
    ∧ (∀ i j a b x,
         out !! i = Some (JDict a) → out !! j = Some (JDict b) →
         assoc "roles" a = Some (JList []) → assoc "privileges" a = Some (JList []) →
         assoc "roles" b = Some (JList [x]) → assoc "privileges" b = Some (JList []) →
         (i < j)%nat).
Proof.
  intros [keys Hkeys]%mapM_Ok_all.
  destruct (py_sorted_spec nexus_sort_roles items keys Hkeys)
    as (out & Hout & Hperm & Hord).
  exists out. split_and!; [done | done | done | apply nexus_sort_roles_lists |].
  intros i j a b x Hi Hj Har Hap Hbr Hbp.
  eapply (Hord i j _ _ _ _ Hi Hj).
  - by apply nexus_sort_roles_lists.
  - by apply nexus_sort_roles_lists.
  - cbn. lia.
Qed.

Lemma role_import_order_witness :
  ∃ out, py_sorted nexus_sort_roles [role_nested; role_plain] = Ok out
    ∧ out ≡ₚ [role_nested; role_plain]
    ∧ ∀ i j, out !! i = Some role_plain → out !! j = Some role_nested → (i < j)%nat.
Proof.
  destruct (role_import_order [role_nested; role_plain])
    as (out & Hout & Hperm & _ & _ & Hex).
  - repeat constructor; eexists; reflexivity.
  - exists out. split_and!; [exact Hout | exact Hperm |].
    intros i j Hi Hj.
    exact (Hex i j _ _ (JStr "x") Hi Hj eq_refl eq_refl eq_refl eq_refl).
Defined.

(** The scores of the two example roles, and the order they come out in. *)
Example role_scores :
  nexus_sort_roles role_plain = Ok 0
  ∧ nexus_sort_roles role_nested = Ok 3
  ∧ py_sorted nexus_sort_roles [role_nested; role_plain] = Ok [role_plain; role_nested].
Proof. split_and!; reflexivity. Qed.

(** A value that has no length stops the sort. *)
Example role_score_undefined :
  py_sorted nexus_sort_roles [JDict [("roles", JNull)]] = Raise TypeError.
Proof. reflexivity. Qed.

Example repo_order_example :
  py_sorted (λ f, Ok (nexus_sort_repos f))
    ["out/repos/maven2-group__all.json"; "out/repos/maven2-proxy__central.json";
     "out/repos/maven2-hosted__releases.json"; "out/repos/npm-proxy__npmjs.json"]
  = Ok ["out/repos/maven2-hosted__releases.json"; "out/repos/maven2-proxy__central.json";
        "out/repos/npm-proxy__npmjs.json"; "out/repos/maven2-group__all.json"].
Proof. reflexivity. Qed.

(** ** Dry mode *)

Lemma only_gets_ret {A} (a : A) : only_gets (mret a).
Proof. intros log. exists []. split; [by rewrite app_nil_r | constructor]. Qed.

Lemma only_gets_lift {A} (r : result A) : only_gets (lift r).
Proof. intros log. exists []. split; [by rewrite app_nil_r | constructor]. Qed.

Lemma only_gets_bind {A B} (m : M A) (f : A → M B) :
  only_gets m → (∀ a, only_gets (f a)) → only_gets (m ≫= f).
Proof.
  intros Hm Hf log. destruct (Hm log) as (new & Hlog & Hnew).
  unfold mbind, M_bind. destruct (m log) as [[a|e] log'] eqn:Hml; cbn in Hlog; subst log'.
  - destruct (Hf a (log ++ new)) as (new' & Hlog' & Hnew').
    exists (new ++ new'). split; [by rewrite Hlog', app_assoc | by apply Forall_app].
  - by exists new.
Qed.

Lemma only_gets_for_each {A} (f : A → M unit) (l : list A) :
  (∀ x, only_gets (f x)) → only_gets (for_each f l).
Proof.
  intros Hf. induction l as [|x l IH]; cbn [for_each].
  - apply only_gets_ret.
  - apply only_gets_bind; [apply Hf | by intros _].
Qed.

Lemma only_gets_send_get E (url : string) : only_gets (send E "GET" url None).
Proof.
  intros log. exists [Request "GET" url None]. split; [reflexivity|].
  by repeat constructor.
Qed.

Ltac only_gets_step :=
  match goal with
  | |- only_gets (mret _) => apply only_gets_ret
  | |- only_gets (lift _) => apply only_gets_lift
  | |- only_gets (send _ "GET" _ None) => apply only_gets_send_get
  | |- only_gets (for_each _ _) => apply only_gets_for_each; intros ?
  | |- only_gets (_ ≫= _) => apply only_gets_bind; [|intros ?]
  | |- only_gets (if ?b then _ else _) => destruct b
  | |- only_gets (match ?x with _ => _ end) => destruct x
  end.

Section DryMode.

Variable E : env.
Variable self : Nexus3Ctl.
Hypothesis Hdry : dry_mode self = true.

(** With the default [dry] argument, a dry application object sends a
    call only for GET. *)
Lemma api_client_dry (url_path method : string) (data : json) :
  only_gets (api_client E self url_path method data None).
Proof. unfold api_client. rewrite Hdry. cbn [default]. repeat only_gets_step. Qed.

Lemma api_client_dry_fake (url_path method : string) (data : json) (log : list request) :
  method ≠ "GET" →
  api_client E self url_path method data None log = (Ok (FakeResponse 200), log).
Proof.
  intros Hm. unfold api_client. rewrite Hdry. cbn [default].
  apply String.eqb_neq in Hm. by rewrite Hm.
Qed.

Lemma api_fetch_dry (url_path : string) : only_gets (api_fetch E self url_path).
Proof. apply api_client_dry. Qed.

Lemma api_get_collection_dry url_path limits select :
  only_gets (api_get_collection E self url_path limits select).
Proof.
  unfold api_get_collection.
  apply only_gets_bind; [apply api_fetch_dry | intros ?]. repeat only_gets_step.
Qed.

Lemma api_get_one_dry url_path : only_gets (api_get_one E self url_path).
Proof.
  unfold api_get_one.
  apply only_gets_bind; [apply api_fetch_dry | intros ?]. repeat only_gets_step.
Qed.

Lemma api_get_repo_dry name repo_format repo_type :
  only_gets (api_get_repo E self name repo_format repo_type).
Proof.
  unfold api_get_repo. apply only_gets_bind.
  - destruct (negb (truthy repo_format) || negb (truthy repo_type));
      [|apply only_gets_ret].
    apply only_gets_bind; [apply api_fetch_dry | intros ?]. repeat only_gets_step.
  - intros [[f t]|]; [apply api_get_one_dry | apply only_gets_ret].
Qed.

Lemma api_get_roles_dry xl xd limits select :
  only_gets (api_get_roles E self xl xd limits select).
Proof.
  unfold api_get_roles.
  apply only_gets_bind; [apply api_fetch_dry | intros ?]. repeat only_gets_step.
Qed.

Lemma api_set_repo_dry config : only_gets (api_set_repo E self config).
Proof.
  unfold api_set_repo. rewrite Hdry.
  apply only_gets_bind; [apply only_gets_lift | intros ?].
  apply only_gets_bind; [apply only_gets_lift | intros ?].
  apply only_gets_bind; [apply api_get_repo_dry | intros ?].
  repeat only_gets_step.
Qed.

Lemma api_set_role_dry config ident : only_gets (api_set_role E self config ident).
Proof.
  unfold api_set_role, api_get_role. rewrite Hdry.
  apply only_gets_bind; [apply only_gets_lift | intros ?].
  apply only_gets_bind; [repeat only_gets_step | intros ?].
  apply only_gets_bind; [apply api_get_one_dry | intros ?].
  repeat only_gets_step.
Qed.

Lemma api_set_ldap_dry config name : only_gets (api_set_ldap E self config name).
Proof.
  unfold api_set_ldap, api_get_ldap. rewrite Hdry.
  apply only_gets_bind; [apply only_gets_lift | intros ?].
  apply only_gets_bind; [repeat only_gets_step | intros ?].
  apply only_gets_bind; [apply api_get_one_dry | intros ?].
  repeat only_gets_step.
Qed.

Lemma api_set_realms_dry config : only_gets (api_set_realms E self config).
Proof. unfold api_set_realms. rewrite Hdry. repeat only_gets_step. Qed.

Lemma cli_import_realms_dry : only_gets (cli_import_realms E self).
Proof.
  unfold cli_import_realms. destruct (glob E _); [apply only_gets_ret|].
  apply only_gets_bind; [apply only_gets_lift | intros ?]. apply api_set_realms_dry.
Qed.

Lemma cli_import_ldap_dry : only_gets (cli_import_ldap E self).
Proof.
  unfold cli_import_ldap.
  apply only_gets_bind; [apply only_gets_lift | intros ?].
  apply only_gets_for_each. intros ?. apply api_set_ldap_dry.
Qed.

Lemma cli_import_roles_dry : only_gets (cli_import_roles E self).
Proof.
  unfold cli_import_roles.
  apply only_gets_bind; [apply only_gets_lift | intros ?].
  apply only_gets_bind; [apply only_gets_lift | intros ?].
  apply only_gets_for_each. intros ?. apply api_set_role_dry.
Qed.

Lemma cli_import_repos_dry : only_gets (cli_import_repos E self).
Proof.
  unfold cli_import_repos.
  apply only_gets_bind; [apply only_gets_lift | intros ?].
  apply only_gets_for_each. intros ?.
  apply only_gets_bind; [apply only_gets_lift | intros ?]. apply api_set_repo_dry.
Qed.

Lemma cli_import_dry types : only_gets (cli_import E self types).
Proof.
  unfold cli_import.
  apply only_gets_bind; [apply only_gets_lift | intros r].
  apply only_gets_bind;
    [destruct (bool_decide _); [apply cli_import_repos_dry | apply only_gets_ret]
    | intros _].
  apply only_gets_bind;
    [destruct (bool_decide _); [apply cli_import_ldap_dry | apply only_gets_ret]
    | intros _].
  apply only_gets_bind;
    [destruct (bool_decide _); [apply cli_import_roles_dry | apply only_gets_ret]
    | intros _].
  destruct (bool_decide _); [apply cli_import_realms_dry | apply only_gets_ret].
Qed.

End DryMode.

(** C4.  With dry mode enabled, a call of [api_client] for a method
    other than GET sends nothing and returns the synthetic response of
    status 200; a GET is sent to the server; and no method of
    [Nexus3Ctl], on any arguments and from any log, adds anything but
    GET calls to the log of the transport. *)
Theorem dry_mode_only_gets (E : env) (self : Nexus3Ctl) :
  dry_mode self = true →
  (∀ url_path method data log,
     method ≠ "GET" →
     api_client E self url_path method data None log = (Ok (FakeResponse 200), log))
  ∧ (∀ url_path log,
       api_client E self url_path "GET" JNull None log
       = let rq := Request "GET" (api_url self +:+ url_path) None in
         match remote E log rq with
         | Ok (s, b) =>
             if Z.eqb s 401
             then (Raise (Nexus3CtlException
                            "Could not authenticate against API, got 401"),
                   log ++ [rq])
             else (Ok (HttpResponse s b), log ++ [rq])
         | Raise e => (Raise e, log ++ [rq])
         end)
  ∧ (∀ c, only_gets (run E self c)).
Proof.
  intros Hdry. split_and!.
  - intros. by apply api_client_dry_fake.
  - intros. apply api_fetch_sends.
  - intros c. destruct c; cbn [run];
      try (apply only_gets_bind; [|intros ?; apply only_gets_ret]);
      eauto using api_get_collection_dry, api_get_repo_dry, api_set_repo_dry,
        api_get_roles_dry, api_get_one_dry, api_set_role_dry, api_set_ldap_dry,
        api_set_realms_dry, cli_import_realms_dry, cli_import_ldap_dry,
        cli_import_roles_dry, cli_import_repos_dry, cli_import_dry.
Qed.

Lemma dry_mode_only_gets_witness :
  only_gets (run demo_env_files (demo_app true) (CliImport "repos")).
Proof.
  apply (dry_mode_only_gets demo_env_files (demo_app true)). reflexivity.
Defined.

(** The import of one repository file, dry and for real: the two GETs
    of the lookup go out in both runs, the PUT only in the second. *)
Example import_repo_dry :
  (run demo_env_files (demo_app true) (CliImport "repos") []).2
  = [Request "GET" "http://nexus/service/rest/v1/repositories/releases" None;
     Request "GET" "http://nexus/service/rest/v1/repositories/maven/hosted/releases" None].
Proof. reflexivity. Qed.

Example import_repo_real :
  (run demo_env_files (demo_app false) (CliImport "repos") []).2
  = [Request "GET" "http://nexus/service/rest/v1/repositories/releases" None;
     Request "GET" "http://nexus/service/rest/v1/repositories/maven/hosted/releases" None;
     Request "PUT" "http://nexus/service/rest/v1/repositories/maven/hosted/releases"
       (Some "{}")].
Proof. reflexivity. Qed.

(** * Further properties of the code *)

(** ** The toggle-list resolver, continued *)

Lemma NoDup_update (st : cl_state) (l : list string) :
  NoDup (st_defaults st) → NoDup l →
  NoDup (st_defaults (update st l)) ∧ NoDup (deref (update st l)).
Proof. unfold update, deref. destruct (st_out st); cbn; auto. Qed.

(** Neither of the two lists ever comes to hold a name twice. *)
Lemma control_step_NoDup (st : cl_state) (conf : string) :
  NoDup (st_defaults st) → NoDup (deref st) →
  NoDup (st_defaults (control_step st conf)) ∧ NoDup (deref (control_step st conf)).
Proof.
  intros Hd Ho. rewrite control_step_cases.
  destruct (String.eqb conf ""); [done|].
  destruct (String.eqb conf "ALL"); [done|].
  destruct (String.eqb conf "NONE"); [by split; [|constructor]|].
  destruct (PyStr.startswith conf "-").
  - destruct (mem _ _); [|done]. apply NoDup_update; [done|].
    by apply NoDup_remove_first.
  - cbn zeta. destruct (mem _ _) eqn:Hm; [done|]. apply NoDup_update; [done|].
    apply NoDup_app. split_and!; [done | | apply NoDup_singleton].
    intros x Hx ->%list_elem_of_singleton. apply mem_elem_of in Hx. congruence.
Qed.

Lemma control_fold_NoDup (tokens : list string) (st : cl_state) :
  NoDup (st_defaults st) → NoDup (deref st) →
  NoDup (st_defaults (foldl control_step st tokens))
  ∧ NoDup (deref (foldl control_step st tokens)).
Proof.
  revert st. induction tokens as [|conf tokens IH]; intros st Hd Ho; [done|].
  cbn [foldl]. destruct (control_step_NoDup st conf Hd Ho). by apply IH.
Qed.

Lemma with_default_snoc (tokens : list string) (dtok : option string) (t : string) :
  ∃ pre, with_default (tokens ++ [t]) dtok = pre ++ [t].
Proof.
  unfold with_default. destruct dtok as [d|]; [|by exists tokens].
  destruct (mem d (tokens ++ [t])); [by exists tokens | by exists (d :: tokens)].
Qed.

Lemma control_list_snoc (tokens : list string) (defaults : option (list string))
    (delim : string) (dtok : option string) (t : string) :
  ∃ st,
    (NoDup (default [] defaults) → NoDup (st_defaults st) ∧ NoDup (deref st))
    ∧ co_result <$> control_list (EList (tokens ++ [t])) defaults delim dtok
      = Ok (list_to_set (deref (control_step st t))).
Proof.
  destruct (with_default_snoc tokens dtok t) as [pre Hpre].
  exists (foldl control_step (ClState (default [] defaults) (OutOwn [])) pre).
  split.
  - intros Hnd. apply control_fold_NoDup; [done | constructor].
  - unfold control_list. cbn [mbind result_bind fmap result_fmap co_result].
    rewrite Hpre, foldl_app. by destruct defaults.
Qed.

Lemma control_step_plus (st : cl_state) (name : string) :
  control_step st ("+" +:+ name)
  = if mem name (deref st) then st else update st (deref st ++ [name]).
Proof.
  rewrite control_step_cases. cbn zeta.
  replace (PyStr.startswith ("+" +:+ name) "+") with true by (by destruct name).
  reflexivity.
Qed.

Lemma control_step_minus (st : cl_state) (name : string) :
  control_step st ("-" +:+ name)
  = if mem name (deref st) then update st (remove_first name (deref st)) else st.
Proof.
  rewrite control_step_cases.
  replace (PyStr.startswith ("-" +:+ name) "-") with true by (by destruct name).
  reflexivity.
Qed.

(** X1.  The last token decides.  Whatever comes before it, a final
    ["NONE"] gives the empty set, a final ["+name"] (or a plain name)
    puts the name in the result, and, when the defaults hold no name
    twice, a final ["-name"] keeps the name out of the result. *)
Theorem control_list_last_token (tokens : list string)
    (defaults : option (list string)) (delim : string) (dtok : option string)
    (name : string) :
  NoDup (default [] defaults) →
  co_result <$> control_list (EList (tokens ++ ["NONE"])) defaults delim dtok = Ok ∅
  ∧ (∃ s, co_result <$> control_list (EList (tokens ++ ["+" +:+ name]))
                          defaults delim dtok = Ok s ∧ name ∈ s)
  ∧ (∃ s, co_result <$> control_list (EList (tokens ++ ["-" +:+ name]))
                          defaults delim dtok = Ok s ∧ name ∉ s)
  ∧ (name ≠ "" → name ≠ "ALL" → name ≠ "NONE" →
     PyStr.startswith name "-" = false → PyStr.startswith name "+" = false →
     ∃ s, co_result <$> control_list (EList (tokens ++ [name])) defaults delim dtok
          = Ok s ∧ name ∈ s).
Proof.
  intros Hnd. split_and!.
  - destruct (control_list_snoc tokens defaults delim dtok "NONE") as (st & _ & ->).
    reflexivity.
  - destruct (control_list_snoc tokens defaults delim dtok ("+" +:+ name))
      as (st & _ & ->).
    eexists. split; [reflexivity|]. rewrite control_step_plus.
    apply elem_of_list_to_set.
    destruct (mem name (deref st)) eqn:Hm; [by apply mem_elem_of|].
    rewrite deref_update. set_solver.
  - destruct (control_list_snoc tokens defaults delim dtok ("-" +:+ name))
      as (st & Hst & ->).
    destruct (Hst Hnd) as [_ Ho].
    eexists. split; [reflexivity|]. rewrite control_step_minus.
    rewrite elem_of_list_to_set.
    destruct (mem name (deref st)) eqn:Hm.
    + rewrite deref_update, elem_of_remove_first by done. tauto.
    + intros ?%mem_elem_of. congruence.
  - intros H0 H1 H2 Hm Hp.
    destruct (control_list_snoc tokens defaults delim dtok name) as (st & _ & ->).
    eexists. split; [reflexivity|]. rewrite control_step_cases.
    apply String.eqb_neq in H0, H1, H2. rewrite H0, H1, H2, Hm, Hp. cbn zeta.
    apply elem_of_list_to_set.
    destruct (mem name (deref st)) eqn:Hmem; [by apply mem_elem_of|].
    rewrite deref_update. set_solver.
Qed.

Lemma control_list_last_token_witness :
  ∃ s, co_result <$> control_list (EList (["ALL"; "extra"] ++ ["-" +:+ "roles"]))
                       (Some ResourceTypes.list) "," (Some "ALL") = Ok s
       ∧ "roles" ∉ s.
Proof.
  refine (proj1 (proj2 (proj2 (control_list_last_token ["ALL"; "extra"]
            (Some ResourceTypes.list) "," (Some "ALL") "roles" _)))).
  cbn. repeat (constructor; [set_solver|]). constructor.
Defined.

Lemma elem_of_remove_first_1 (x y : string) (l : list string) :
  y ∈ remove_first x l → y ∈ l.
Proof.
  induction l as [|a l IH]; [done|]. cbn [remove_first].
  destruct (String.eqb x a); set_solver.
Qed.

Lemma startswith_plus (conf : string) :
  PyStr.startswith conf "+" = true → conf = "+" +:+ PyStr.tail conf.
Proof.
  destruct conf as [|c conf]; [discriminate|].
  unfold PyStr.startswith. cbn [String.prefix PyStr.tail].
  destruct (Ascii.ascii_dec _ c) as [<-|]; [done | discriminate].
Qed.

Lemma control_fold_bound (dflt toks rest : list string) (st : cl_state) :
  let known x := x ∈ dflt ∨ x ∈ toks ∨ ("+" +:+ x) ∈ toks in
  rest ⊆ toks →
  (∀ x, x ∈ st_defaults st ∨ x ∈ deref st → known x) →
  ∀ x, x ∈ st_defaults (foldl control_step st rest)
       ∨ x ∈ deref (foldl control_step st rest) → known x.
Proof.
  intros known. revert st. induction rest as [|conf rest IH]; intros st Hsub Hst; [done|].
  cbn [foldl]. apply IH; [set_solver|].
  assert (Hconf : conf ∈ toks) by set_solver.
  assert (Hupd : ∀ l, (∀ x, x ∈ l → known x) →
            ∀ x, x ∈ st_defaults (update st l) ∨ x ∈ deref (update st l) → known x).
  { intros l Hl x. unfold update, deref. destruct (st_out st) eqn:Ho; cbn.
    - intros [?|?]; auto.
    - intros [?|?]; [apply Hst|]; auto. }
  rewrite control_step_cases.
  destruct (String.eqb conf ""); [done|].
  destruct (String.eqb conf "ALL"); [cbn; intros x [?|?]; apply Hst; auto|].
  destruct (String.eqb conf "NONE");
    [cbn; intros x [?|?]; [apply Hst; auto | set_solver]|].
  destruct (PyStr.startswith conf "-").
  - destruct (mem _ _); [|done]. apply Hupd.
    intros x ?%elem_of_remove_first_1. apply Hst. auto.
  - cbn zeta. destruct (mem _ _); [done|]. apply Hupd.
    intros x [?| ->%list_elem_of_singleton]%elem_of_app; [apply Hst; auto|].
    unfold known. destruct (PyStr.startswith conf "+") eqn:Hp; [|auto].
    right. right. by rewrite <- startswith_plus.
Qed.

(** X2.  The resolver invents no name: every name of the result is one
    of the defaults, or a token, or a token without its ["+"]. *)
Theorem control_list_names_known (tokens : list string)
    (defaults : option (list string)) (delim : string) (dtok : option string) :
  ∃ r, control_list (EList tokens) defaults delim dtok = Ok r
    ∧ ∀ x, x ∈ co_result r →
        x ∈ default [] defaults
        ∨ x ∈ with_default tokens dtok
        ∨ ("+" +:+ x) ∈ with_default tokens dtok.
Proof.
  eexists. split; [reflexivity|]. cbn [co_result].
  intros x Hx%elem_of_list_to_set.
  apply (control_fold_bound (default [] defaults) (with_default tokens dtok)
           (with_default tokens dtok) (ClState (default [] defaults) (OutOwn [])));
    [done | | right; by destruct defaults].
  cbn. intros y [Hy|Hy]; [by left | set_solver].
Qed.

Lemma control_fold_own (rest : list string) (l : list string) :
  "ALL" ∉ rest →
  ∃ l', ∀ d, foldl control_step (ClState d (OutOwn l)) rest = ClState d (OutOwn l').
Proof.
  revert l. induction rest as [|conf rest IH]; intros l Hall; [by exists l|].
  assert (Hc : conf ≠ "ALL") by set_solver.
  assert (Hr : "ALL" ∉ rest) by set_solver.
  cbn [foldl].
  assert (Hstep : ∃ l1, ∀ d, control_step (ClState d (OutOwn l)) conf
                             = ClState d (OutOwn l1)).
  { apply String.eqb_neq in Hc.
    destruct (String.eqb conf "") eqn:H0;
      [exists l; intros d; by rewrite control_step_cases, H0|].
    destruct (String.eqb conf "NONE") eqn:H2;
      [exists []; intros d; by rewrite control_step_cases, H0, Hc, H2|].
    destruct (PyStr.startswith conf "-") eqn:Hm.
    - destruct (mem (PyStr.tail conf) l) eqn:Hmem.
      + exists (remove_first (PyStr.tail conf) l). intros d.
        rewrite control_step_cases, H0, Hc, H2, Hm. cbn [deref st_out]. by rewrite Hmem.
      + exists l. intros d.
        rewrite control_step_cases, H0, Hc, H2, Hm. cbn [deref st_out]. by rewrite Hmem.
    - set (name := if PyStr.startswith conf "+" then PyStr.tail conf else conf).
      destruct (mem name l) eqn:Hmem.
      + exists l. intros d.
        rewrite control_step_cases, H0, Hc, H2, Hm. cbn [deref st_out]. cbn zeta.
        fold name. by rewrite Hmem.
      + exists (l ++ [name]). intros d.
        rewrite control_step_cases, H0, Hc, H2, Hm. cbn [deref st_out]. cbn zeta.
        fold name. by rewrite Hmem. }
  destruct Hstep as [l1 Hl1]. destruct (IH l1 Hr) as [l' Hl'].
  exists l'. intros d. by rewrite Hl1.
Qed.

(** X3.  As long as no ["ALL"] is evaluated, the defaults play no part:
    the caller's list is left as it was, and the result is the one an
    empty list of defaults gives. *)
Theorem control_list_without_all (tokens : list string)
    (defaults : option (list string)) (delim : string) (dtok : option string) :
  "ALL" ∉ with_default tokens dtok →
  ∃ r, control_list (EList tokens) defaults delim dtok = Ok r
    ∧ co_defaults r = defaults
    ∧ co_result <$> control_list (EList tokens) None delim dtok = Ok (co_result r).
Proof.
  intros Hall. eexists. split; [reflexivity|].
  cbn [co_defaults co_result fmap result_fmap mbind result_bind control_list].
  destruct (control_fold_own (with_default tokens dtok) [] Hall) as [l' Hl'].
  rewrite !Hl'. split; [by destruct defaults as [[|]|] | done].
Qed.

Lemma control_list_without_all_witness :
  ∃ r, control_list (EList ["repos"; "-roles"]) (Some ResourceTypes.list) ","
         (Some "NONE") = Ok r
    ∧ co_defaults r = Some ResourceTypes.list
    ∧ co_result <$> control_list (EList ["repos"; "-roles"]) None "," (Some "NONE")
      = Ok (co_result r).
Proof.
  apply (control_list_without_all ["repos"; "-roles"] (Some ResourceTypes.list)
           "," (Some "NONE")).
  cbn. set_solver.
Defined.

(** X4.  When the defaults hold no name twice and ["ALL"] stands at
    most once among the tokens walked, [control_list] returns the set
    that the left-to-right evaluation on sets gives: ["ALL"] the
    defaults, ["NONE"] the empty set, ["-name"] a removal, ["+name"]
    and a plain name an addition. *)
Theorem control_list_set_semantics (tokens defaults : list string) (delim : string)
    (dtok : option string) :
  NoDup defaults →
  (length (filter (λ t, t = "ALL") (with_default tokens dtok)) ≤ 1)%nat →
  co_result <$> control_list (EList tokens) (Some defaults) delim dtok
  = Ok (foldl (resolve_step defaults) ∅ (with_default tokens dtok)).
Proof. apply control_list_refines. Qed.

Lemma control_list_set_semantics_witness :
  co_result <$> control_list (EList ["-ldap"; "+extra"; ""; "NONE"; "repos"])
                  (Some ResourceTypes.list) "," (Some "ALL")
  = Ok (foldl (resolve_step ResourceTypes.list) ∅
          (with_default ["-ldap"; "+extra"; ""; "NONE"; "repos"] (Some "ALL"))).
Proof.
  apply (control_list_set_semantics ["-ldap"; "+extra"; ""; "NONE"; "repos"]
           ResourceTypes.list "," (Some "ALL")).
  - cbn. repeat (constructor; [set_solver|]). constructor.
  - vm_compute. lia.
Defined.

(** ** The selector, continued *)

Section KeyedFold.

Context {A : Type} (k : A → string).

Lemma add_new_keys (out : list A) (m : A) :
  k m ∈ k <$> add_new k out m ∧ (∀ x, x ∈ out → x ∈ add_new k out m).
Proof.
  unfold add_new. destruct (decide (k m ∈ k <$> out)); [done|].
  split; [|set_solver]. rewrite fmap_app. set_solver.
Qed.

Lemma add_fold_mono (ms out : list A) (x : A) :
  x ∈ out → x ∈ foldl (add_new k) out ms.
Proof.
  revert out. induction ms as [|m ms IH]; intros out Hx; [done|].
  cbn [foldl]. apply IH. by apply add_new_keys.
Qed.

Lemma add_fold_covers (ms out : list A) (m : A) :
  m ∈ ms → k m ∈ k <$> foldl (add_new k) out ms.
Proof.
  revert out. induction ms as [|m' ms IH]; intros out Hm; [by apply not_elem_of_nil in Hm|].
  cbn [foldl]. apply elem_of_cons in Hm as [->|Hm]; [|by apply IH].
  destruct (add_new_keys out m') as [Hk _].
  apply list_elem_of_fmap in Hk as (y & Hy & Hin).
  apply list_elem_of_fmap. exists y. split; [done | by apply add_fold_mono].
Qed.

Lemma add_fold_NoDup (ms out : list A) :
  NoDup (k <$> out) → NoDup (k <$> foldl (add_new k) out ms).
Proof.
  revert out. induction ms as [|m ms IH]; intros out Hnd; [done|].
  cbn [foldl]. apply IH. unfold add_new.
  destruct (decide (k m ∈ k <$> out)); [done|].
  rewrite fmap_app. apply NoDup_app. split_and!; [done | | apply NoDup_singleton].
  intros x Hx ->%list_elem_of_singleton. done.
Qed.

(** An element that the fold adds is the first of its identifying value
    among the matches, and that value was not in [out]. *)
Lemma add_fold_first (ms out : list A) (x : A) :
  x ∈ foldl (add_new k) out ms →
  x ∈ out
  ∨ ∃ pre post, ms = pre ++ x :: post ∧ (k x ∉ k <$> pre) ∧ (k x ∉ k <$> out).
Proof.
  revert out. induction ms as [|m ms IH]; intros out Hx; [by left|].
  cbn [foldl] in Hx. destruct (add_new_keys out m) as [Hkm Hmono].
  destruct (IH _ Hx) as [Hin|(pre & post & -> & Hpre & Hout)].
  - unfold add_new in Hin. destruct (decide (k m ∈ k <$> out)) as [|Hm]; [by left|].
    apply elem_of_app in Hin as [?| ->%list_elem_of_singleton]; [by left|].
    right. exists [], ms. split_and!; [done | set_solver | done].
  - right. exists (m :: pre), post. split_and!; [done | |].
    + rewrite fmap_cons. intros [Heq|?]%elem_of_cons; [|done].
      apply Hout. by rewrite Heq.
    + intros (y & Hy & Hin)%list_elem_of_fmap. apply Hout.
      apply list_elem_of_fmap. exists y. split; [done | by apply Hmono].
Qed.

(** The first match of a value is the first item of that value, when
    matching looks at the value alone. *)
Lemma filter_first (P : A → Prop) `{!∀ x, Decision (P x)} (l pre post : list A) (x : A) :
  (∀ a b, k a = k b → P a → P b) →
  filter P l = pre ++ x :: post → k x ∉ k <$> pre →
  ∃ pre' post', l = pre' ++ x :: post' ∧ k x ∉ k <$> pre'.
Proof.
  intros Hresp. revert pre. induction l as [|y l IH]; intros pre Hf Hpre.
  - by destruct pre.
  - rewrite filter_cons in Hf. destruct (decide (P y)) as [Hy|Hy].
    + destruct pre as [|p pre]; cbn in Hf; simplify_eq.
      * exists [], l. split; [done | set_solver].
      * destruct (IH pre) as (pre' & post' & -> & Hpre'); [done | set_solver |].
        exists (p :: pre'), post'. split; [done|].
        rewrite fmap_cons. set_solver.
    + destruct (IH pre Hf Hpre) as (pre' & post' & -> & Hpre').
      exists (y :: pre'), post'. split; [done|].
      rewrite fmap_cons. intros [Heq|?]%elem_of_cons; [|done].
      apply Hy. apply (Hresp x); [done|].
      assert (Hx : x ∈ filter P (pre' ++ x :: post')) by (rewrite Hf; set_solver).
      by apply list_elem_of_filter in Hx as [? _].
Qed.

End KeyedFold.

Lemma well_keyed_str (key : string) (config : list item) (it : item) :
  well_keyed key config → it ∈ config → assoc key it = Some (JStr (key_str key it)).
Proof.
  intros Hwk Hit. unfold well_keyed in Hwk. rewrite Forall_forall in Hwk.
  destruct (Hwk it Hit) as [s Hs]. unfold key_str. by rewrite Hs.
Qed.

Lemma filterM_keyed (key : string) (f : json → result bool) (p : string → bool)
    (config : list item) :
  well_keyed key config → (∀ s, f (JStr s) = Ok (p s)) →
  filterM (λ it, v ← py_get it key JNull; f v) (JDict <$> config)
  = Ok (JDict <$> filter (λ it, p (key_str key it) = true) config).
Proof.
  intros Hwk Hf. induction config as [|it config IH]; [reflexivity|].
  pose proof (well_keyed_str key _ it Hwk ltac:(left)) as Hit.
  apply Forall_cons in Hwk as [_ Hwk].
  rewrite fmap_cons, filter_cons. cbn [filterM py_get mbind result_bind].
  rewrite Hit. cbn [from_option id]. rewrite Hf, (IH Hwk). cbn [mbind result_bind].
  destruct (p (key_str key it)) eqn:Hp.
  - by rewrite decide_True.
  - by rewrite decide_False.
Qed.

Section KeyedSelection.

Variable rv : string → bool.
Variable rm : string → string → bool.
Variable key : string.
Variable config : list item.

Hypothesis Hconfig : well_keyed key config.

Lemma matched_keyed (select r : string) :
  select ∈ LimitSelect.list →
  (select = LimitSelect.REGEX → rv r = true) →
  matched_for rv rm (JDict <$> config) key select r
  = Ok (JDict <$> filter (matching_rule rm select key r) config).
Proof.
  intros Hselect Hre. unfold matched_for, matching_rule, rule_matches.
  unfold LimitSelect.list in Hselect.
  repeat (apply elem_of_cons in Hselect as [->|Hselect]);
    [| | | | | by apply not_elem_of_nil in Hselect];
    cbn [String.eqb Ascii.eqb Bool.eqb LimitSelect.EXACT LimitSelect.CONTAINS
         LimitSelect.STARTSWITH LimitSelect.ENDSWITH LimitSelect.REGEX].
  - by apply (filterM_keyed key (λ v, Ok (json_eq v (JStr r))) (λ s, String.eqb s r)).
  - by apply (filterM_keyed key (py_in r) (PyStr.contains r)).
  - by apply (filterM_keyed key (λ v, py_startswith v r) (λ s, PyStr.startswith s r)).
  - by apply (filterM_keyed key (λ v, py_endswith v r) (λ s, PyStr.endswith s r)).
  - apply (filterM_keyed key (py_re_match rv rm r) (rm r)); [done|].
    intros s. unfold py_re_match. by rewrite Hre.
Qed.

Lemma append_new_keyed (ms out : list item) :
  ms ⊆ config → out ⊆ config →
  append_new key (JDict <$> ms) (JDict <$> out)
  = Ok (JDict <$> foldl (add_new (key_str key)) out ms).
Proof.
  revert out. induction ms as [|m ms IH]; intros out Hms Hout; [reflexivity|].
  rewrite fmap_cons. cbn [append_new py_get mbind result_bind foldl].
  rewrite (well_keyed_str key config m) by set_solver. cbn [from_option id].
  rewrite (filterM_keyed key (λ v, Ok (json_eq v (JStr (key_str key m))))
             (λ s, String.eqb s (key_str key m)));
    [|by eapply Forall_forall; intros; eapply Forall_forall in Hconfig; eauto|done].
  cbn [mbind result_bind]. unfold add_new at 2.
  destruct (decide (key_str key m ∈ key_str key <$> out)) as [Hin|Hin].
  - apply list_elem_of_fmap in Hin as (y & Hy & Hyin).
    destruct (filter _ out) as [|z zs] eqn:Hf.
    { assert (y ∈ filter (λ it, String.eqb (key_str key it) (key_str key m) = true) out)
        as Hy'; [|by rewrite Hf in Hy'; apply not_elem_of_nil in Hy'].
      apply list_elem_of_filter. split; [|done]. rewrite Hy. apply String.eqb_refl. }
    cbn [fmap list_fmap]. apply IH; set_solver.
  - destruct (filter _ out) as [|z zs] eqn:Hf.
    + cbn [fmap list_fmap].
      replace ((JDict <$> out) ++ [JDict m]) with (JDict <$> (out ++ [m]))
        by (by rewrite fmap_app).
      apply IH; set_solver.
    + assert (z ∈ filter (λ it, String.eqb (key_str key it) (key_str key m) = true) out)
        as Hz by (rewrite Hf; left).
      apply list_elem_of_filter in Hz as [Hz Hzin]. apply String.eqb_eq in Hz.
      destruct Hin. apply list_elem_of_fmap. by exists z.
Qed.

Lemma sel_step_subset (select : string) (out : list item) (r : string) :
  out ⊆ config → sel_step rm select key config out r ⊆ config.
Proof.
  intros Hout x Hx. apply add_fold_first in Hx as [?|(pre & post & Hf & _)]; [set_solver|].
  assert (Hin : x ∈ filter (matching_rule rm select key r) config)
    by (rewrite Hf; set_solver).
  by apply list_elem_of_filter in Hin as [_ ?].
Qed.

Lemma reduce_loop_keyed (select : string) (rules : list string) (out : list item) :
  select ∈ LimitSelect.list →
  (select = LimitSelect.REGEX → Forall (λ r, rv r = true) rules) →
  out ⊆ config →
  reduce_loop rv rm (JDict <$> config) key select rules (JDict <$> out)
  = Ok (JDict <$> foldl (sel_step rm select key config) out rules).
Proof.
  intros Hselect.
  revert out. induction rules as [|r rules IH]; intros out Hre Hout; [reflexivity|].
  cbn [reduce_loop foldl]. rewrite matched_keyed; [|done|].
  2:{ intros Hs. specialize (Hre Hs). by apply Forall_cons in Hre as [? _]. }
  cbn [mbind result_bind]. rewrite append_new_keyed; [| |done].
  2:{ intros x Hx. by apply list_elem_of_filter in Hx as [_ ?]. }
  cbn [mbind result_bind]. apply IH.
  - intros Hs. specialize (Hre Hs). by apply Forall_cons in Hre as [_ ?].
  - by apply sel_step_subset.
Qed.

End KeyedSelection.

Lemma sel_sound rm (key : string) (config : list item) (select : string)
    (rules : list string) (x : item) :
  x ∈ foldl (sel_step rm select key config) [] rules →
  x ∈ config ∧ ∃ r, r ∈ rules ∧ matching_rule rm select key r x.
Proof.
  induction rules as [|r rules IH] using rev_ind; [by intros ?%not_elem_of_nil|].
  rewrite foldl_app. cbn [foldl]. unfold sel_step at 1.
  intros [Hin|(pre & post & Hf & _)]%add_fold_first.
  - destruct (IH Hin) as (? & r' & ? & ?). split; [done|]. exists r'. set_solver.
  - assert (Hx : x ∈ filter (matching_rule rm select key r) config)
      by (rewrite Hf; set_solver).
    apply list_elem_of_filter in Hx as [? ?]. split; [done|]. exists r. set_solver.
Qed.

Lemma sel_complete rm (key : string) (config : list item) (select : string)
    (rules : list string) (it : item) (r : string) :
  it ∈ config → r ∈ rules → matching_rule rm select key r it →
  key_str key it ∈ key_str key <$> foldl (sel_step rm select key config) [] rules.
Proof.
  intros Hit Hr HP. induction rules as [|r' rules IH] using rev_ind;
    [by apply not_elem_of_nil in Hr|].
  rewrite foldl_app. cbn [foldl]. unfold sel_step at 1.
  apply elem_of_app in Hr as [Hr| ->%list_elem_of_singleton].
  - specialize (IH Hr). apply list_elem_of_fmap in IH as (y & Hy & Hin).
    apply list_elem_of_fmap. exists y. split; [done | by apply add_fold_mono].
  - apply add_fold_covers. by apply list_elem_of_filter.
Qed.

Lemma sel_NoDup rm (key : string) (config : list item) (select : string)
    (rules : list string) :
  NoDup (key_str key <$> foldl (sel_step rm select key config) [] rules).
Proof.
  induction rules as [|r rules IH] using rev_ind; [constructor|].
  rewrite foldl_app. cbn [foldl]. by apply add_fold_NoDup.
Qed.

Lemma sel_first_item rm (key : string) (config : list item) (select : string)
    (rules : list string) (x : item) :
  x ∈ foldl (sel_step rm select key config) [] rules →
  ∃ pre post, config = pre ++ x :: post ∧ key_str key x ∉ key_str key <$> pre.
Proof.
  induction rules as [|r rules IH] using rev_ind; [by intros ?%not_elem_of_nil|].
  rewrite foldl_app. cbn [foldl]. unfold sel_step at 1.
  intros [Hin|(pre & post & Hf & Hpre & _)]%add_fold_first; [by apply IH|].
  eapply (filter_first (key_str key) (matching_rule rm select key r));
    [|exact Hf|exact Hpre].
  intros a b Hab. unfold matching_rule. by rewrite Hab.
Qed.

Lemma NoDup_fmap_eq {A B} (f : A → B) (l : list A) (x y : A) :
  NoDup (f <$> l) → x ∈ l → y ∈ l → f x = f y → x = y.
Proof.
  induction l as [|a l IH]; [by intros _ ?%not_elem_of_nil|].
  rewrite fmap_cons, NoDup_cons. intros [Ha Hnd] Hx Hy Heq.
  apply elem_of_cons in Hx as [->|Hx]; apply elem_of_cons in Hy as [->|Hy]; auto.
  - destruct Ha. rewrite Heq. by apply list_elem_of_fmap_2.
  - destruct Ha. rewrite <- Heq. by apply list_elem_of_fmap_2.
Qed.

(** X5.  On a collection whose items all carry a string in the key
    field, every supported strategy returns (for regex, when the rules
    are valid patterns), and what it returns holds only items of the
    collection that match a rule, covers the identifying value of every
    item that matches a rule, holds no identifying value twice, and
    keeps of each value the first item of the collection; when the
    values of the collection are pairwise distinct, the result holds
    exactly the items that match a rule. *)
Theorem limit_reduce_keyed rv rm (config : list item) (key r : string)
    (rs : list string) (sep select : string) :
  select ∈ LimitSelect.list →
  well_keyed key config →
  (select = LimitSelect.REGEX → Forall (λ p, rv p = true) (r :: rs)) →
  ∃ out : list item,
    limit_reduce rv rm (JList (JDict <$> config)) key (LList (r :: rs)) sep (Some select)
    = Ok (JList (JDict <$> out))
    ∧ (∀ it, it ∈ out →
         it ∈ config
         ∧ ∃ r', r' ∈ r :: rs ∧ rule_matches rm select r' (key_str key it) = true)
    ∧ (∀ it r', it ∈ config → r' ∈ r :: rs →
         rule_matches rm select r' (key_str key it) = true →
         ∃ it', it' ∈ out ∧ key_str key it' = key_str key it)
    ∧ NoDup (key_str key <$> out)
    ∧ (∀ it, it ∈ out →
         ∃ pre post, config = pre ++ it :: post
                     ∧ key_str key it ∉ key_str key <$> pre)
    ∧ (NoDup (key_str key <$> config) →
       ∀ it, it ∈ out ↔
             it ∈ config
             ∧ ∃ r', r' ∈ r :: rs ∧ rule_matches rm select r' (key_str key it) = true).
Proof.
  intros Hsel Hwk Hre.
  exists (foldl (sel_step rm select key config) [] (r :: rs)).
  assert (Hcomplete : ∀ it r', it ∈ config → r' ∈ r :: rs →
            rule_matches rm select r' (key_str key it) = true →
            ∃ it', it' ∈ foldl (sel_step rm select key config) [] (r :: rs)
                   ∧ key_str key it' = key_str key it).
  { intros it r' Hit Hr' Hm.
    pose proof (sel_complete rm key config select (r :: rs) it r' Hit Hr' Hm) as Hin.
    apply list_elem_of_fmap in Hin as (it' & ? & ?). by exists it'. }
  split_and!.
  - unfold limit_reduce.
    assert (Hne : String.eqb select "" = false).
    { apply String.eqb_neq. intros ->. unfold LimitSelect.list in Hsel.
      repeat (apply elem_of_cons in Hsel as [Hsel|Hsel]; [discriminate|]).
      by apply not_elem_of_nil in Hsel. }
    rewrite Hne. cbn [mbind result_bind].
    change (@nil json) with (JDict <$> @nil item).
    rewrite (reduce_loop_keyed rv rm key config Hwk select (r :: rs) []); [done..|].
    intros x ?. by apply not_elem_of_nil in H.
  - intros it Hit. exact (sel_sound rm key config select (r :: rs) it Hit).
  - exact Hcomplete.
  - apply sel_NoDup.
  - intros it Hit. exact (sel_first_item rm key config select (r :: rs) it Hit).
  - intros Hnd it. split; [apply (sel_sound rm key config select (r :: rs))|].
    intros (Hit & r' & Hr' & Hm).
    destruct (Hcomplete it r' Hit Hr' Hm) as (it' & Hin & Heq).
    assert (it' = it) as <-; [|done].
    eapply (NoDup_fmap_eq (key_str key) config); [done | | done | done].
    by apply (sel_sound rm key config select (r :: rs)).
Qed.

Lemma limit_reduce_keyed_witness :
  ∃ out : list item,
    limit_reduce (λ _, true) (λ _ _, false)
      (JList (JDict <$> [repo_releases; repo_central])) "name"
      (LList ["central"; "maven"]) "," (Some LimitSelect.CONTAINS)
    = Ok (JList (JDict <$> out))
    ∧ NoDup (key_str "name" <$> out).
Proof.
  destruct (limit_reduce_keyed (λ _, true) (λ _ _, false)
              [repo_releases; repo_central] "name" "central" ["maven"] ","
              LimitSelect.CONTAINS) as (out & Hout & _ & _ & Hnd & _).
  - unfold LimitSelect.list. set_solver.
  - repeat constructor; eexists; reflexivity.
  - discriminate.
  - exists out. by split.
Defined.

Example limit_reduce_contains_example :
  limit_reduce (λ _, true) (λ _ _, false)
    (JList (JDict <$> [repo_releases; repo_central])) "name"
    (LList ["central"; "maven"]) "," (Some LimitSelect.CONTAINS)
  = Ok (JList (JDict <$> [repo_central; repo_releases])).
Proof. reflexivity. Qed.

Lemma filterM_subset {A} (p : A → result bool) (l r : list A) :
  filterM p l = Ok r → r ⊆ l.
Proof.
  revert r. induction l as [|x l IH]; intros r; cbn [filterM].
  - by intros [= <-].
  - destruct (p x) as [b|]; [|discriminate]. cbn [mbind result_bind].
    destruct (filterM p l) as [r'|]; [|discriminate]. cbn [mbind result_bind].
    intros [= <-]. specialize (IH r' eq_refl). destruct b; set_solver.
Qed.

Lemma append_new_subset (key : string) (ms out r : list json) :
  append_new key ms out = Ok r → ∀ x, x ∈ r → x ∈ out ∨ x ∈ ms.
Proof.
  revert out r. induction ms as [|m ms IH]; intros out r; cbn [append_new].
  - intros [= <-]. auto.
  - destruct (py_get m key JNull) as [ident|]; [|discriminate]. cbn [mbind result_bind].
    destruct (filterM _ out) as [existing|]; [|discriminate]. cbn [mbind result_bind].
    intros Hr x Hx. destruct (IH _ _ Hr x Hx) as [Hin|Hin]; [|set_solver].
    destruct existing; set_solver.
Qed.

Lemma reduce_loop_subset rv rm (items : list json) (key select : string)
    (rules : list string) (out r : list json) :
  reduce_loop rv rm items key select rules out = Ok r →
  ∀ x, x ∈ r → x ∈ out ∨ x ∈ items.
Proof.
  revert out r. induction rules as [|rule rules IH]; intros out r; cbn [reduce_loop].
  - intros [= <-]. auto.
  - destruct (matched_for rv rm items key select rule) as [matched|] eqn:Hm;
      [|discriminate]. cbn [mbind result_bind].
    destruct (append_new key matched out) as [out'|] eqn:Ha; [|discriminate].
    cbn [mbind result_bind]. intros Hr x Hx.
    destruct (IH _ _ Hr x Hx) as [Hin|?]; [|by right].
    destruct (append_new_subset key matched out out' Ha x Hin) as [?|Hin']; [by left|].
    right. revert Hm Hin'. unfold matched_for.
    repeat (destruct (String.eqb _ _); [intros ?%filterM_subset; set_solver|]).
    discriminate.
Qed.

(** X6.  Selection makes up nothing: whatever the items, the rules and
    the strategy, a list that [limit_reduce] returns holds only
    elements of the list it was given. *)
Theorem limit_reduce_subset rv rm (items : list json) (key : string)
    (limits : limits_arg) (sep : string) (select : option string) (out : json) :
  limit_reduce rv rm (JList items) key limits sep select = Ok out →
  ∃ l, out = JList l ∧ ∀ x, x ∈ l → x ∈ items.
Proof.
  unfold limit_reduce.
  destruct (match limits with
            | LNone => Ok [] | LStr s => PyStr.split s sep | LList l => Ok l
            end) as [[|r rules]|]; cbn [mbind result_bind]; [| |discriminate].
  - intros [= <-]. by exists items.
  - destruct (reduce_loop _ _ _ _ _ _ _) as [l|] eqn:Hl; [|discriminate].
    cbn [fmap result_fmap]. intros [= <-]. exists l. split; [done|].
    intros x Hx. destruct (reduce_loop_subset _ _ _ _ _ _ _ _ Hl x Hx) as [?|?]; [|done].
    by apply not_elem_of_nil in H.
Qed.

Lemma limit_reduce_subset_witness :
  ∃ l, JList [JDict repo_central] = JList l
       ∧ ∀ x, x ∈ l → x ∈ [JDict repo_releases; JDict repo_central].
Proof.
  apply (limit_reduce_subset (λ _, true) (λ _ _, false)
           [JDict repo_releases; JDict repo_central] "type" (LStr "proxy") ","
           (Some LimitSelect.ENDSWITH)).
  reflexivity.
Defined.

Lemma append_new_nil (key : string) (out : list json) : append_new key [] out = Ok out.
Proof. reflexivity. Qed.

Lemma reduce_loop_nil rv rm (key select : string) (rules : list string) :
  select ∈ LimitSelect.list →
  reduce_loop rv rm [] key select rules [] = Ok [].
Proof.
  intros Hsel. induction rules as [|r rules IH]; [reflexivity|].
  cbn [reduce_loop].
  assert (Hm : matched_for rv rm [] key select r = Ok []).
  { unfold matched_for, LimitSelect.list in *.
    repeat (apply elem_of_cons in Hsel as [->|Hsel]); try reflexivity.
    by apply not_elem_of_nil in Hsel. }
  rewrite Hm. cbn [mbind result_bind append_new]. apply IH.
Qed.

(** X7.  On an empty collection every supported strategy returns the
    empty list, whatever the rules: a rule is never looked at, so that
    even a regex rule that is no valid pattern goes unnoticed. *)
Theorem limit_reduce_empty_collection rv rm (key : string) (limits : limits_arg)
    (sep select : string) :
  select ∈ LimitSelect.list → sep ≠ "" →
  limit_reduce rv rm (JList []) key limits sep (Some select) = Ok (JList []).
Proof.
  intros Hsel Hsep. unfold limit_reduce.
  assert (Hne : String.eqb select "" = false).
  { apply String.eqb_neq. intros ->. unfold LimitSelect.list in Hsel.
    repeat (apply elem_of_cons in Hsel as [Hsel|Hsel]; [discriminate|]).
    by apply not_elem_of_nil in Hsel. }
  rewrite Hne.
  destruct limits as [|s|[|r rules]]; try reflexivity.
  - unfold PyStr.split. destruct sep; [done|]. cbn [mbind result_bind].
    destruct (PyStr.split_go _ s 0 "") as [|r rules]; [reflexivity|].
    by rewrite reduce_loop_nil.
  - cbn [mbind result_bind]. by rewrite reduce_loop_nil.
Qed.

Lemma limit_reduce_empty_collection_witness :
  limit_reduce (λ _, false) (λ _ _, false) (JList []) "name" (LStr "(unclosed") ","
    (Some LimitSelect.REGEX) = Ok (JList []).
Proof.
  apply limit_reduce_empty_collection; [|discriminate].
  unfold LimitSelect.list. set_solver.
Defined.

(** X8.  A string of rules is never an empty list of rules.  Handed the
    empty string, [limit_reduce] does not pass the collection through:
    it looks for the rule [""], and under the exact strategy returns
    the first item whose key field is the empty string, if there is
    one, and nothing else. *)
Theorem limit_reduce_empty_string rv rm (config : list item) (key sep : string) :
  sep ≠ "" →
  limit_reduce rv rm (JList (JDict <$> config)) key (LStr "") sep
    (Some LimitSelect.EXACT)
  = Ok (JList (JDict <$> take 1 (filter (has_key key "") config))).
Proof.
  intros Hsep. rewrite (limit_reduce_split _ _ _ _ _ _ [""]).
  2:{ unfold PyStr.split. by destruct sep. }
  unfold limit_reduce. cbn [String.eqb LimitSelect.EXACT mbind result_bind].
  change (@nil json) with (JDict <$> @nil item).
  rewrite (reduce_loop_exact rv rm key config [""] []).
  cbn [fmap result_fmap foldl]. unfold exact_step.
  destruct (filter (has_key key "") config) as [|m ms]; [reflexivity|].
  rewrite decide_False; [reflexivity|]. by intros ?%Exists_nil.
Qed.

Lemma limit_reduce_empty_string_witness :
  limit_reduce (λ _, true) (λ _ _, false)
    (JList (JDict <$> [repo_releases; repo_central])) "name" (LStr "") ","
    (Some LimitSelect.EXACT)
  = Ok (JList (JDict <$> take 1 (filter (has_key "name" "")
                                   [repo_releases; repo_central]))).
Proof. apply limit_reduce_empty_string. discriminate. Defined.

(** ** Import ordering, continued *)

Section SortingMore.

Context {A : Type}.

Lemma insert_keyed_split (k : Z) (x : A) (lo hi : list (Z * A)) :
  Forall (λ p, p.1 < k) lo → Forall (λ p, k ≤ p.1) hi →
  insert_keyed k x (lo ++ hi) = lo ++ (k, x) :: hi.
Proof.
  intros Hlo Hhi. induction Hlo as [|[k' y] lo Hk _ IH]; cbn [app insert_keyed].
  - destruct Hhi as [|[k' y] hi Hk _]; [done|]. cbn [insert_keyed].
    cbn in Hk. by rewrite (proj2 (Z.leb_le k k')).
  - cbn in Hk. rewrite (proj2 (Z.leb_gt k k')) by done. by rewrite IH.
Qed.

(** A list whose keys already ascend is left as it is. *)
Lemma sort_keyed_sorted_id (l : list (Z * A)) :
  StronglySorted (λ p q, p.1 ≤ q.1) l → sort_keyed l = l.
Proof.
  induction 1 as [|[k x] l _ IH Hall]; [done|].
  unfold sort_keyed in *. cbn [foldr fst snd]. rewrite IH.
  by apply (insert_keyed_split k x []).
Qed.

Lemma decorated_zip (key : A → result Z) (dl : list (Z * A)) :
  Forall (λ p, key p.2 = Ok p.1) dl →
  mapM key dl.*2 = Ok dl.*1 ∧ zip dl.*1 dl.*2 = dl.
Proof.
  induction 1 as [|[k x] dl Hk _ [IH1 IH2]]; [done|].
  cbn in Hk. cbn [fmap list_fmap mapM fst snd zip zip_with]. rewrite Hk, IH1, IH2. done.
Qed.

Lemma py_sorted_idempotent (key : A → result Z) (l out : list A) :
  py_sorted key l = Ok out → py_sorted key out = Ok out.
Proof.
  unfold py_sorted. destruct (mapM key l) as [keys|] eqn:Hkeys; [|discriminate].
  cbn [mbind result_bind]. intros [= <-].
  apply mapM_Ok_inv, zip_keys in Hkeys as [_ Hdec].
  assert (Hdec' : Forall (λ p, key p.2 = Ok p.1) (sort_keyed (zip keys l)))
    by (by rewrite sort_keyed_perm).
  destruct (decorated_zip key _ Hdec') as [Hm Hz].
  rewrite Hm. cbn [mbind result_bind]. rewrite Hz.
  by rewrite sort_keyed_sorted_id by apply sort_keyed_sorted.
Qed.

End SortingMore.

(** X9.  The order of [cli_import_repos] in closed form: the files whose
    name contains ["hosted"], then those that contain ["proxy"] and not
    ["hosted"], then the others, each group in the order in which the
    files were found. *)
Theorem repo_import_order_groups (files : list string) :
  py_sorted (λ f, Ok (nexus_sort_repos f)) files
  = Ok (filter (λ f, PyStr.contains "hosted" f = true) files
        ++ filter (λ f, PyStr.contains "hosted" f = false
                        ∧ PyStr.contains "proxy" f = true) files
        ++ filter (λ f, PyStr.contains "hosted" f = false
                        ∧ PyStr.contains "proxy" f = false) files).
Proof.
  unfold py_sorted. rewrite mapM_Ok_total. cbn [mbind result_bind]. f_equal.
  set (dec := λ f : string, (nexus_sort_repos f, f)).
  set (H1 := λ f, PyStr.contains "hosted" f = true).
  set (H2 := λ f, PyStr.contains "hosted" f = false ∧ PyStr.contains "proxy" f = true).
  set (H3 := λ f, PyStr.contains "hosted" f = false ∧ PyStr.contains "proxy" f = false).
  assert (Hzip : zip (nexus_sort_repos <$> files) files = dec <$> files).
  { clear. induction files as [|f files IH]; [done|]. cbn. by rewrite IH. }
  rewrite Hzip.
  assert (Hsort : sort_keyed (dec <$> files)
                  = (dec <$> filter H1 files) ++ (dec <$> filter H2 files)
                    ++ (dec <$> filter H3 files)).
  { clear Hzip. induction files as [|f files IH]; [done|].
    rewrite fmap_cons. unfold sort_keyed in *. cbn [foldr]. rewrite IH.
    assert (Hk : ∀ (P : string → Prop) `{!∀ x, Decision (P x)} k,
              (∀ g, P g → nexus_sort_repos g = k) →
              Forall (λ p : Z * string, p.1 = k) (dec <$> filter P files)).
    { intros P ? k HP. apply Forall_fmap, Forall_forall.
      intros g [Hg _]%list_elem_of_filter. cbn. by apply HP. }
    pose proof (Hk H1 _ 1) as F1. pose proof (Hk H2 _ 2) as F2.
    pose proof (Hk H3 _ 3) as F3.
    assert (F1' := F1 ltac:(unfold H1, nexus_sort_repos; intros g ->; done)).
    assert (F2' := F2 ltac:(unfold H2, nexus_sort_repos; intros g [-> ->]; done)).
    assert (F3' := F3 ltac:(unfold H3, nexus_sort_repos; intros g [-> ->]; done)).
    clear Hk F1 F2 F3. rewrite !filter_cons. change (dec f).1 with (nexus_sort_repos f).
    change (dec f).2 with f.
    assert (Hcase : (H1 f ∧ ¬ H2 f ∧ ¬ H3 f ∧ nexus_sort_repos f = 1)
                    ∨ (¬ H1 f ∧ H2 f ∧ ¬ H3 f ∧ nexus_sort_repos f = 2)
                    ∨ (¬ H1 f ∧ ¬ H2 f ∧ H3 f ∧ nexus_sort_repos f = 3)).
    { unfold H1, H2, H3, nexus_sort_repos.
      destruct (PyStr.contains "hosted" f); [|destruct (PyStr.contains "proxy" f)];
        [left | right; left | right; right]; intuition congruence. }
    destruct Hcase as [(h1 & h2 & h3 & Hr)|[(h1 & h2 & h3 & Hr)|(h1 & h2 & h3 & Hr)]].
    - rewrite decide_True, decide_False, decide_False by done.
      rewrite fmap_cons. change (dec f) with (nexus_sort_repos f, f). rewrite Hr.
      apply (insert_keyed_split 1 f []); [constructor|].
      rewrite !Forall_app. split_and!; eapply Forall_impl; eauto; cbn; lia.
    - rewrite decide_False, decide_True, decide_False by done.
      rewrite fmap_cons. change (dec f) with (nexus_sort_repos f, f). rewrite Hr.
      apply (insert_keyed_split 2 f (dec <$> filter H1 files)).
      + eapply Forall_impl; eauto; cbn; lia.
      + rewrite !Forall_app. split_and!; eapply Forall_impl; eauto; cbn; lia.
    - rewrite decide_False, decide_False, decide_True by done.
      rewrite fmap_cons. change (dec f) with (nexus_sort_repos f, f).
      rewrite Hr, !app_assoc.
      apply (insert_keyed_split 3 f
               ((dec <$> filter H1 files) ++ (dec <$> filter H2 files))).
      + rewrite !Forall_app. split_and!; eapply Forall_impl; eauto; cbn; lia.
      + eapply Forall_impl; eauto; cbn; lia. }
  rewrite Hsort, !fmap_app, <- !list_fmap_compose.
  assert (Hid : ∀ l : list string, (snd ∘ dec) <$> l = l).
  { intros l. induction l as [|g l IH]; [done|]. cbn. by rewrite IH. }
  by rewrite !Hid.
Qed.

(** X10.  Ordering is idempotent: handed the list it produced, the
    sort of [cli_import_repos], and that of [cli_import_roles], return
    it unchanged. *)
Theorem import_order_idempotent :
  (∀ files out : list string,
     py_sorted (λ f, Ok (nexus_sort_repos f)) files = Ok out →
     py_sorted (λ f, Ok (nexus_sort_repos f)) out = Ok out)
  ∧ (∀ items out : list json,
       py_sorted nexus_sort_roles items = Ok out →
       py_sorted nexus_sort_roles out = Ok out).
Proof. split; intros ? ?; apply py_sorted_idempotent. Qed.

Lemma prefix_app (sub a b : string) :
  String.prefix sub a = true → String.prefix sub (a +:+ b) = true.
Proof.
  revert a. induction sub as [|c sub IH]; intros a.
  - intros _. by destruct (a +:+ b).
  - destruct a as [|c' a]; [discriminate|].
    change (String c' a +:+ b) with (String c' (a +:+ b)). cbn [String.prefix].
    destruct (Ascii.ascii_dec c c'); [apply IH | done].
Qed.

Lemma contains_app (sub a b : string) :
  PyStr.contains sub a = true → PyStr.contains sub (a +:+ b) = true.
Proof.
  induction a as [|c a IH].
  - cbn [PyStr.contains]. rewrite orb_false_r. intros H.
    destruct sub; [|discriminate]. by destruct ("" +:+ b).
  - change (String c a +:+ b) with (String c (a +:+ b)). cbn [PyStr.contains].
    intros [H|H]%orb_true_iff.
    + apply orb_true_iff. left. by apply (prefix_app sub (String c a) b).
    + apply orb_true_iff. right. by apply IH.
Qed.

(** X11.  The rank is read off the whole path.  When the path of the
    target directory itself contains ["hosted"], every file found under
    it counts as hosted, and the import takes the files in the order in
    which they were found. *)
Theorem repo_import_order_hosted_dir (dir : string) (names : list string) :
  PyStr.contains "hosted" dir = true →
  py_sorted (λ f, Ok (nexus_sort_repos f)) ((λ n, dir +:+ n) <$> names)
  = Ok ((λ n, dir +:+ n) <$> names).
Proof.
  intros Hdir. rewrite repo_import_order_groups. f_equal.
  set (l := (λ n, dir +:+ n) <$> names).
  assert (Hall : Forall (λ f, PyStr.contains "hosted" f = true) l).
  { apply Forall_fmap, Forall_forall. intros n _. cbn. by apply contains_app. }
  clearbody l. clear Hdir.
  induction Hall as [|f l Hf _ IH]; [done|].
  rewrite !filter_cons, decide_True, decide_False, decide_False
    by (rewrite ?Hf; intuition congruence).
  cbn [app]. f_equal. exact IH.
Qed.

Lemma repo_import_order_hosted_dir_witness :
  py_sorted (λ f, Ok (nexus_sort_repos f))
    ((λ n, "/srv/hosted-backup/repos/" +:+ n)
       <$> ["maven2-group__all.json"; "maven2-proxy__central.json"])
  = Ok ((λ n, "/srv/hosted-backup/repos/" +:+ n)
          <$> ["maven2-group__all.json"; "maven2-proxy__central.json"]).
Proof. apply repo_import_order_hosted_dir. reflexivity. Defined.

(** ** The transport, continued *)

Lemma api_fetch_any E self (url_path : string) : only_gets (api_fetch E self url_path).
Proof.
  intros log. exists [get_request self url_path]. rewrite api_fetch_sends. cbn zeta.
  split; [|by repeat constructor].
  destruct (remote E log _) as [[s b]|e]; [destruct (Z.eqb s 401)|]; reflexivity.
Qed.

Ltac only_gets_any :=
  repeat first [ apply api_fetch_any | only_gets_step ].

Lemma api_get_collection_any E self url_path limits select :
  only_gets (api_get_collection E self url_path limits select).
Proof. unfold api_get_collection. only_gets_any. Qed.

Lemma api_get_one_any E self url_path : only_gets (api_get_one E self url_path).
Proof. unfold api_get_one. only_gets_any. Qed.

Lemma api_get_repo_any E self name repo_format repo_type :
  only_gets (api_get_repo E self name repo_format repo_type).
Proof.
  unfold api_get_repo. apply only_gets_bind.
  - destruct (negb (truthy repo_format) || negb (truthy repo_type));
      [|apply only_gets_ret]. only_gets_any.
  - intros [[f t]|]; [apply api_get_one_any | apply only_gets_ret].
Qed.

Lemma api_get_roles_any E self xl xd limits select :
  only_gets (api_get_roles E self xl xd limits select).
Proof. unfold api_get_roles. only_gets_any. Qed.

(** X12.  The reading methods never change anything on the server: dry
    mode or not, whatever the server answers and whether they return or
    raise, they add nothing but GET calls to the log. *)
Theorem read_methods_only_get (E : env) (self : Nexus3Ctl) :
  (∀ limits select, only_gets (api_get_repos E self limits select))
  ∧ (∀ name f t, only_gets (api_get_repo E self name f t))
  ∧ (∀ xl xd limits select, only_gets (api_get_roles E self xl xd limits select))
  ∧ (∀ ident, only_gets (api_get_role E self ident))
  ∧ (∀ limits select, only_gets (api_get_ldaps E self limits select))
  ∧ (∀ ident, only_gets (api_get_ldap E self ident))
  ∧ (∀ limits select, only_gets (api_get_realms E self limits select)).
Proof.
  split_and!; intros;
    first [ apply api_get_collection_any | apply api_get_repo_any
          | apply api_get_roles_any | apply api_get_one_any ].
Qed.

(** *** What the writing methods send *)

Lemma silent_ret {A} (a : A) : silent (mret a).
Proof. by intros log. Qed.

Lemma silent_lift {A} (r : result A) : silent (lift r).
Proof. by intros log. Qed.

Lemma rtw_only_gets {A} (W : request → Prop) (m : M A) :
  only_gets m → reads_then_writes W m.
Proof.
  intros Hm log. destruct (Hm log) as (new & Hlog & Hnew).
  exists new, []. rewrite app_nil_r. auto.
Qed.

Lemma rtw_bind_gets {A B} (W : request → Prop) (m : M A) (f : A → M B) :
  only_gets m → (∀ a, reads_then_writes W (f a)) → reads_then_writes W (m ≫= f).
Proof.
  intros Hm Hf log. destruct (Hm log) as (new & Hlog & Hnew).
  unfold mbind, M_bind. destruct (m log) as [[a|e] log'] eqn:Hml; cbn in Hlog; subst log'.
  - destruct (Hf a (log ++ new)) as (gets & tail & Hlog' & Hgets & Htail).
    exists (new ++ gets), tail. split_and!; [|by apply Forall_app|done].
    by rewrite Hlog', <- !app_assoc.
  - exists new, []. rewrite app_nil_r. auto.
Qed.

Lemma rtw_bind_last {A B} (W : request → Prop) (m : M A) (f : A → M B) :
  reads_then_writes W m → (∀ a, silent (f a)) → reads_then_writes W (m ≫= f).
Proof.
  intros Hm Hf log. destruct (Hm log) as (gets & tail & Hlog & Hgets & Htail).
  exists gets, tail. split_and!; [|done..].
  unfold mbind, M_bind. destruct (m log) as [[a|e] log'] eqn:Hml; cbn in Hlog; subst log'.
  - apply Hf.
  - done.
Qed.

Lemma rtw_send E (W : request → Prop) (method url : string) (data : option string)
    (f : response → M response) :
  W (Request method url data) → (∀ r, silent (f r)) →
  reads_then_writes W (send E method url data ≫= f).
Proof.
  intros HW Hf log. exists [], [Request method url data]. split_and!.
  - unfold mbind, M_bind, send.
    destruct (remote E log _) as [a|e]; cbn [fmap result_fmap]; [apply Hf | done].
  - constructor.
  - right. eauto.
Qed.

Lemma silent_check (out : response) :
  silent (if Z.eqb (status_code out) 401
          then lift (Raise (Nexus3CtlException
                 "Could not authenticate against API, got 401"))
          else mret out).
Proof. destruct (Z.eqb _ 401); [apply silent_lift | apply silent_ret]. Qed.

(** A PUT or a POST of [api_client]: in dry mode nothing is sent, live
    the one call goes out. *)
Lemma api_client_write E self (W : request → Prop) (url_path method : string)
    (data : json) :
  method = "PUT" ∨ method = "POST" →
  (dry_mode self = false →
   W (Request method (api_url self +:+ url_path)
        (Some (match data with JStr s => s | _ => dumps E data end)))) →
  reads_then_writes W (api_client E self url_path method data None).
Proof.
  intros Hm HW. unfold api_client. cbn [default].
  destruct (dry_mode self).
  - apply rtw_only_gets. destruct Hm as [-> | ->]; cbn [String.eqb Ascii.eqb Bool.eqb];
      only_gets_any.
  - destruct Hm as [-> | ->]; cbn [String.eqb Ascii.eqb Bool.eqb];
      (apply rtw_send; [by apply HW | apply silent_check]).
Qed.

Lemma assoc_dict_del_eq (k : string) (d : item) : assoc k (dict_del k d) = None.
Proof.
  unfold dict_del, item in *. induction d as [|[k' v] d IH]; [done|].
  rewrite filter_cons. cbn [fst]. destruct (decide (k' ≠ k)) as [Hne|Heq]; [|done].
  cbn [assoc]. by rewrite (proj2 (String.eqb_neq k k')).
Qed.

Lemma assoc_dict_del_ne (k k' : string) (d : item) :
  k ≠ k' → assoc k' (dict_del k d) = assoc k' d.
Proof.
  intros Hne. unfold dict_del, item in *. induction d as [|[k'' v] d IH]; [done|].
  rewrite filter_cons. cbn [fst assoc].
  destruct (decide (k'' ≠ k)) as [Hne'|Heq].
  - cbn [assoc]. by rewrite IH.
  - apply dec_stable in Heq as ->. by rewrite (proj2 (String.eqb_neq k' k)).
Qed.

Lemma assoc_dict_set_eq (k : string) (v : json) (d : item) :
  assoc k (dict_set k v d) = Some v.
Proof.
  induction d as [|[k' w] d IH]; cbn [dict_set assoc].
  - by rewrite String.eqb_refl.
  - destruct (String.eqb k k') eqn:Hk; cbn [assoc].
    + by rewrite String.eqb_refl.
    + by rewrite Hk.
Qed.

Lemma assoc_dict_set_ne (k k' : string) (v : json) (d : item) :
  k ≠ k' → assoc k' (dict_set k v d) = assoc k' d.
Proof.
  intros Hne. induction d as [|[k'' w] d IH]; cbn [dict_set assoc].
  - by rewrite (proj2 (String.eqb_neq k' k)).
  - destruct (String.eqb k k'') eqn:Hk; cbn [assoc].
    + apply String.eqb_eq in Hk as <-. by rewrite (proj2 (String.eqb_neq k' k)).
    + by rewrite IH.
Qed.

Lemma nexus_remap_format_not_maven2 (v : json) :
  json_eq (nexus_remap_format v) (JStr "maven2") = false.
Proof. unfold nexus_remap_format. by destruct (json_eq v (JStr "maven2")) eqn:Hv. Qed.

Lemma rtw_impl {A} (W W' : request → Prop) (m : M A) :
  (∀ rq, W rq → W' rq) → reads_then_writes W m → reads_then_writes W' m.
Proof.
  intros HW Hm log. destruct (Hm log) as (gets & tail & ? & ? & Htail).
  exists gets, tail. split_and!; [done..|].
  destruct Htail as [?|(rq & ? & ?)]; [by left | right; eauto].
Qed.

Ltac rtw_lifts :=
  repeat (apply rtw_bind_gets; [apply only_gets_lift | intros ?]).

Lemma api_set_repo_sends E self (config : json) :
  reads_then_writes
    (λ rq, dry_mode self = false
           ∧ (rq_method rq = "PUT" ∨ rq_method rq = "POST")
           ∧ ∃ d, rq_data rq = Some (dumps E (JDict d))
                  ∧ assoc "url" d = None
                  ∧ ∃ v, assoc "format" d = Some v
                         ∧ json_eq v (JStr "maven2") = false)
    (api_set_repo E self config).
Proof.
  unfold api_set_repo. rtw_lifts.
  apply rtw_bind_gets; [apply api_get_repo_any | intros current].
  apply rtw_bind_gets; [apply only_gets_lift | intros fmt]. cbn zeta.
  set (d := dict_del "url" (dict_set "format" (nexus_remap_format fmt) a)).
  rtw_lifts.
  apply rtw_bind_last; [|intros; apply silent_ret].
  assert (Hd : ∃ d', Some (dumps E (JDict d)) = Some (dumps E (JDict d'))
                     ∧ assoc "url" d' = None
                     ∧ ∃ v, assoc "format" d' = Some v
                            ∧ json_eq v (JStr "maven2") = false).
  { exists d. split_and!; [done | apply assoc_dict_del_eq |].
    exists (nexus_remap_format fmt). split; [|apply nexus_remap_format_not_maven2].
    unfold d. rewrite assoc_dict_del_ne by done. apply assoc_dict_set_eq. }
  destruct (dry_mode self) eqn:Hdry.
  - apply rtw_only_gets. only_gets_any.
  - destruct (truthy current); apply api_client_write; auto.
Qed.

(** X13.  Each writing method sends its lookups first and then at most
    one further call, which is the last one and goes out only when dry
    mode is off: a PUT or a POST for a repository and for a role, a
    POST to [security/ldap] for an LDAP endpoint (which is never
    updated), a PUT to [security/realms/active] for the realms. *)
Theorem write_methods_discipline (E : env) (self : Nexus3Ctl) :
  (∀ config,
     reads_then_writes
       (λ rq, dry_mode self = false ∧ (rq_method rq = "PUT" ∨ rq_method rq = "POST"))
       (api_set_repo E self config))
  ∧ (∀ config ident,
       reads_then_writes
         (λ rq, dry_mode self = false
                ∧ (rq_method rq = "PUT" ∨ rq_method rq = "POST"))
         (api_set_role E self config ident))
  ∧ (∀ config name,
       reads_then_writes
         (λ rq, dry_mode self = false ∧ rq_method rq = "POST"
                ∧ rq_url rq = api_url self +:+ "security/ldap")
         (api_set_ldap E self config name))
  ∧ (∀ config,
       reads_then_writes
         (λ rq, dry_mode self = false ∧ rq_method rq = "PUT"
                ∧ rq_url rq = api_url self +:+ "security/realms/active")
         (api_set_realms E self config)).
Proof.
  split_and!.
  - intros config. eapply rtw_impl; [|apply api_set_repo_sends]. cbn. tauto.
  - intros config ident. unfold api_set_role, api_get_role. rtw_lifts.
    apply rtw_bind_gets; [only_gets_any | intros ident'].
    apply rtw_bind_gets; [apply api_get_one_any | intros current].
    apply rtw_bind_last; [|intros; apply silent_ret].
    destruct (dry_mode self) eqn:Hdry.
    + apply rtw_only_gets. only_gets_any.
    + destruct (truthy current); apply api_client_write; auto.
  - intros config name. unfold api_set_ldap, api_get_ldap. rtw_lifts.
    apply rtw_bind_gets; [only_gets_any | intros ident'].
    apply rtw_bind_gets; [apply api_get_one_any | intros current].
    apply rtw_bind_last; [|intros; apply silent_ret].
    destruct (dry_mode self) eqn:Hdry.
    + apply rtw_only_gets. only_gets_any.
    + destruct (truthy current); [apply rtw_only_gets; only_gets_any|].
      apply api_client_write; auto.
  - intros config. unfold api_set_realms. rtw_lifts.
    apply rtw_bind_last; [|intros; apply silent_lift].
    destruct (dry_mode self) eqn:Hdry.
    + apply rtw_only_gets. only_gets_any.
    + apply api_client_write; auto.
Qed.

(** X14.  What [api_set_repo] sends for a repository never carries the
    [url] field, and its [format] is never ["maven2"]: the payload of
    its PUT or POST is the serialization of a dict without [url] and
    with a remapped [format]. *)
Theorem api_set_repo_payload (E : env) (self : Nexus3Ctl) (config : json) :
  reads_then_writes
    (λ rq, ∃ d, rq_data rq = Some (dumps E (JDict d))
                ∧ assoc "url" d = None
                ∧ ∃ v, assoc "format" d = Some v
                       ∧ json_eq v (JStr "maven2") = false)
    (api_set_repo E self config).
Proof. eapply rtw_impl; [|apply api_set_repo_sends]. cbn. tauto. Qed.

(** *** No call but GET, PUT and POST *)

Lemma sends_only_ret {A} (P : request → Prop) (a : A) : sends_only P (mret a).
Proof. intros log. exists []. split; [by rewrite app_nil_r | constructor]. Qed.

Lemma sends_only_lift {A} (P : request → Prop) (r : result A) : sends_only P (lift r).
Proof. intros log. exists []. split; [by rewrite app_nil_r | constructor]. Qed.

Lemma sends_only_bind {A B} (P : request → Prop) (m : M A) (f : A → M B) :
  sends_only P m → (∀ a, sends_only P (f a)) → sends_only P (m ≫= f).
Proof.
  intros Hm Hf log. destruct (Hm log) as (new & Hlog & Hnew).
  unfold mbind, M_bind. destruct (m log) as [[a|e] log'] eqn:Hml; cbn in Hlog; subst log'.
  - destruct (Hf a (log ++ new)) as (new' & Hlog' & Hnew').
    exists (new ++ new'). split; [by rewrite Hlog', app_assoc | by apply Forall_app].
  - by exists new.
Qed.

Lemma sends_only_for_each {A} (P : request → Prop) (f : A → M unit) (l : list A) :
  (∀ x, sends_only P (f x)) → sends_only P (for_each f l).
Proof.
  intros Hf. induction l as [|x l IH]; cbn [for_each].
  - apply sends_only_ret.
  - apply sends_only_bind; [apply Hf | by intros _].
Qed.

Lemma sends_only_gets {A} (P : request → Prop) (m : M A) :
  (∀ rq, rq_method rq = "GET" → P rq) → only_gets m → sends_only P m.
Proof.
  intros HP Hm log. destruct (Hm log) as (new & ? & Hnew).
  exists new. split; [done|]. eapply Forall_impl; eauto.
Qed.

Lemma sends_only_rtw {A} (P W : request → Prop) (m : M A) :
  (∀ rq, rq_method rq = "GET" → P rq) → (∀ rq, W rq → P rq) →
  reads_then_writes W m → sends_only P m.
Proof.
  intros HP HW Hm log. destruct (Hm log) as (gets & tail & ? & Hgets & Htail).
  exists (gets ++ tail). split; [done|]. apply Forall_app. split.
  - eapply Forall_impl; eauto.
  - destruct Htail as [->|(rq & -> & ?)]; repeat constructor. by apply HW.
Qed.

(** X15.  Nothing is ever deleted on the server: whatever the method,
    its arguments, the mode and the answers of the server, the calls
    it sends are GET, PUT and POST calls only. *)
Theorem methods_never_delete (E : env) (self : Nexus3Ctl) (c : method_call) :
  sends_only (λ rq, rq_method rq = "GET" ∨ rq_method rq = "PUT" ∨ rq_method rq = "POST")
    (run E self c).
Proof.
  set (P := λ rq, rq_method rq = "GET" ∨ rq_method rq = "PUT" ∨ rq_method rq = "POST").
  assert (HG : ∀ rq, rq_method rq = "GET" → P rq) by (unfold P; auto).
  destruct (write_methods_discipline E self) as (Hrepo & Hrole & Hldap & Hrealms).
  assert (Srepo : ∀ config, sends_only P (api_set_repo E self config)).
  { intros. eapply sends_only_rtw; [done| |apply Hrepo]. unfold P. cbn. tauto. }
  assert (Srole : ∀ config i, sends_only P (api_set_role E self config i)).
  { intros. eapply sends_only_rtw; [done| |apply Hrole]. unfold P. cbn. tauto. }
  assert (Sldap : ∀ config n, sends_only P (api_set_ldap E self config n)).
  { intros. eapply sends_only_rtw; [done| |apply Hldap]. unfold P. cbn. tauto. }
  assert (Srealms : ∀ config, sends_only P (api_set_realms E self config)).
  { intros. eapply sends_only_rtw; [done| |apply Hrealms]. unfold P. cbn. tauto. }
  assert (Irealms : sends_only P (cli_import_realms E self)).
  { unfold cli_import_realms. destruct (glob E _); [apply sends_only_ret|].
    apply sends_only_bind; [apply sends_only_lift | auto]. }
  assert (Ildap : sends_only P (cli_import_ldap E self)).
  { unfold cli_import_ldap. apply sends_only_bind; [apply sends_only_lift | intros ?].
    apply sends_only_for_each. auto. }
  assert (Iroles : sends_only P (cli_import_roles E self)).
  { unfold cli_import_roles.
    apply sends_only_bind; [apply sends_only_lift | intros ?].
    apply sends_only_bind; [apply sends_only_lift | intros ?].
    apply sends_only_for_each. auto. }
  assert (Irepos : sends_only P (cli_import_repos E self)).
  { unfold cli_import_repos.
    apply sends_only_bind; [apply sends_only_lift | intros ?].
    apply sends_only_for_each. intros ?.
    apply sends_only_bind; [apply sends_only_lift | auto]. }
  destruct (read_methods_only_get E self) as (G1 & G2 & G3 & G4 & G5 & G6 & G7).
  destruct c; cbn [run]; auto;
    try (apply sends_only_bind; [|intros ?; apply sends_only_ret];
         apply sends_only_gets; auto).
  unfold cli_import.
  apply sends_only_bind; [apply sends_only_lift | intros r].
  repeat (apply sends_only_bind;
          [destruct (bool_decide _); [done | apply sends_only_ret] | intros _]).
  destruct (bool_decide _); [done | apply sends_only_ret].
Qed.

(** *** The answers of the server *)

Lemma api_fetch_status E self (url_path : string) (log : list request) (s : Z)
    (b : option json) :
  remote E log (get_request self url_path) = Ok (s, b) →
  api_fetch E self url_path log
  = (if Z.eqb s 401 then Raise auth_failure else Ok (HttpResponse s b),
     log ++ [get_request self url_path]).
Proof.
  intros Hr. rewrite api_fetch_sends. cbn zeta. fold (get_request self url_path).
  rewrite Hr. by destruct (Z.eqb s 401).
Qed.

(** X16.  An answer 401 is fatal for every reading method: when the
    server answers 401, the method raises the authentication error
    right after its first GET. *)
Theorem auth_failure_is_fatal (E : env) (self : Nexus3Ctl) (log : list request) :
  (∀ rq, ∃ b, remote E log rq = Ok (401, b)) →
  (∀ limits select,
     api_get_repos E self limits select log
     = (Raise auth_failure, log ++ [get_request self "repositories"]))
  ∧ (∀ xl xd limits select,
       api_get_roles E self xl xd limits select log
       = (Raise auth_failure, log ++ [get_request self "security/roles"]))
  ∧ (∀ limits select,
       api_get_ldaps E self limits select log
       = (Raise auth_failure, log ++ [get_request self "security/ldap"]))
  ∧ (∀ limits select,
       api_get_realms E self limits select log
       = (Raise auth_failure, log ++ [get_request self "security/realms/active"]))
  ∧ (∀ ident,
       api_get_role E self ident log
       = (Raise auth_failure,
          log ++ [get_request self ("security/roles/" +:+ fstr E ident)]))
  ∧ (∀ ident,
       api_get_ldap E self ident log
       = (Raise auth_failure,
          log ++ [get_request self ("security/ldap/" +:+ fstr E ident)]))
  ∧ (∀ name,
       api_get_repo E self name JNull JNull log
       = (Raise auth_failure,
          log ++ [get_request self ("repositories/" +:+ fstr E name)])).
Proof.
  intros Hremote.
  assert (Hf : ∀ p, api_fetch E self p log
                    = (Raise auth_failure, log ++ [get_request self p])).
  { intros p. destruct (Hremote (get_request self p)) as [b Hb].
    by rewrite (api_fetch_status _ _ _ _ _ _ Hb). }
  split_and!; intros;
    unfold api_get_repos, api_get_ldaps, api_get_realms, api_get_collection,
      api_get_roles, api_get_role, api_get_ldap, api_get_one, api_get_repo;
    cbn [truthy negb orb]; unfold mbind, M_bind; by rewrite Hf.
Qed.

Lemma auth_failure_is_fatal_witness :
  api_get_repos demo_env_401 (demo_app false) (LStr "maven") None []
  = (Raise auth_failure, [get_request (demo_app false) "repositories"]).
Proof.
  refine (proj1 (auth_failure_is_fatal demo_env_401 (demo_app false) [] _)
            (LStr "maven") None).
  intros rq. by exists None.
Defined.

(** X17.  A resource that is not there is an empty result, not an
    error: when the server answers a status other than 200 and 401, a
    reading method sends its one GET and returns the empty dict,
    whatever the rules and the strategy (an unsupported strategy goes
    unnoticed). *)
Theorem missing_resource_is_empty (E : env) (self : Nexus3Ctl) (log : list request)
    (s : Z) :
  s ≠ 200 → s ≠ 401 →
  (∀ rq, ∃ b, remote E log rq = Ok (s, b)) →
  (∀ limits select,
     api_get_repos E self limits select log
     = (Ok (JDict []), log ++ [get_request self "repositories"]))
  ∧ (∀ xl xd limits select,
       api_get_roles E self xl xd limits select log
       = (Ok (JDict []), log ++ [get_request self "security/roles"]))
  ∧ (∀ limits select,
       api_get_ldaps E self limits select log
       = (Ok (JDict []), log ++ [get_request self "security/ldap"]))
  ∧ (∀ limits select,
       api_get_realms E self limits select log
       = (Ok (JDict []), log ++ [get_request self "security/realms/active"]))
  ∧ (∀ ident,
       api_get_role E self ident log
       = (Ok (JDict []),
          log ++ [get_request self ("security/roles/" +:+ fstr E ident)]))
  ∧ (∀ ident,
       api_get_ldap E self ident log
       = (Ok (JDict []),
          log ++ [get_request self ("security/ldap/" +:+ fstr E ident)]))
  ∧ (∀ name,
       api_get_repo E self name JNull JNull log
       = (Ok (JDict []),
          log ++ [get_request self ("repositories/" +:+ fstr E name)])).
Proof.
  intros H200 H401 Hremote.
  assert (Hf : ∀ p, ∃ b, api_fetch E self p log
                    = (Ok (HttpResponse s b), log ++ [get_request self p])).
  { intros p. destruct (Hremote (get_request self p)) as [b Hb]. exists b.
    rewrite (api_fetch_status _ _ _ _ _ _ Hb).
    by rewrite (proj2 (Z.eqb_neq s 401)). }
  apply Z.eqb_neq in H200.
  split_and!; intros;
    unfold api_get_repos, api_get_ldaps, api_get_realms, api_get_collection,
      api_get_roles, api_get_role, api_get_ldap, api_get_one, api_get_repo;
    cbn [truthy negb orb]; unfold mbind, M_bind;
    match goal with |- context [api_fetch E self ?p log] =>
      destruct (Hf p) as [b ->] end;
    cbn [status_code]; by rewrite H200.
Qed.

Lemma missing_resource_is_empty_witness :
  api_get_repos demo_env_404 (demo_app false) (LStr "maven") (Some "bogus") []
  = (Ok (JDict []), [get_request (demo_app false) "repositories"]).
Proof.
  refine (proj1 (missing_resource_is_empty demo_env_404 (demo_app false) [] 404 _ _ _)
            (LStr "maven") (Some "bogus")); [lia | lia |].
  intros rq. by exists None.
Defined.

(** X18.  A method outside GET, PUT, POST and DELETE is refused before
    anything is sent, but only when dry mode is off; in dry mode the
    check is not reached and the call is answered with the synthetic
    response. *)
Theorem api_client_unsupported_method (E : env) (self : Nexus3Ctl)
    (url_path method : string) (data : json) (log : list request) :
  method ∉ ["PUT"; "POST"; "DELETE"; "GET"] →
  api_client E self url_path method data None log
  = if dry_mode self then (Ok (FakeResponse 200), log)
    else (Raise (Nexus3CtlException ("Unsupported HTTP method: " +:+ method)), log).
Proof.
  intros Hm. unfold api_client. cbn [default].
  assert (H1 : String.eqb method "PUT" = false) by (apply String.eqb_neq; set_solver).
  assert (H2 : String.eqb method "POST" = false) by (apply String.eqb_neq; set_solver).
  assert (H3 : String.eqb method "DELETE" = false) by (apply String.eqb_neq; set_solver).
  assert (H4 : String.eqb method "GET" = false) by (apply String.eqb_neq; set_solver).
  rewrite H1, H2, H3, H4. by destruct (dry_mode self).
Qed.

Lemma api_client_unsupported_method_witness :
  api_client demo_env (demo_app false) "repositories" "PATCH" JNull None []
  = (Raise (Nexus3CtlException "Unsupported HTTP method: PATCH"), []).
Proof.
  apply (api_client_unsupported_method demo_env (demo_app false)).
  intros H. repeat (apply elem_of_cons in H as [H|H]; [discriminate|]).
  by apply not_elem_of_nil in H.
Defined.

Lemma py_sorted_nil {A} (key : A → result Z) : py_sorted key [] = Ok [].
Proof. reflexivity. Qed.

(** X19.  A resource type without files is a no-op: when nothing is
    found in the target directory, each importer, and the [import]
    command as a whole, returns without sending anything. *)
Theorem import_of_nothing (E : env) (self : Nexus3Ctl) (log : list request) :
  (∀ pattern, glob E pattern = []) →
  cli_import_realms E self log = (Ok tt, log)
  ∧ cli_import_ldap E self log = (Ok tt, log)
  ∧ cli_import_roles E self log = (Ok tt, log)
  ∧ cli_import_repos E self log = (Ok tt, log)
  ∧ (∀ types, cli_import E self types log = (Ok tt, log)).
Proof.
  intros Hglob.
  assert (H1 : cli_import_realms E self log = (Ok tt, log))
    by (unfold cli_import_realms; by rewrite Hglob).
  assert (H2 : cli_import_ldap E self log = (Ok tt, log))
    by (unfold cli_import_ldap; by rewrite Hglob).
  assert (H3 : cli_import_roles E self log = (Ok tt, log))
    by (unfold cli_import_roles; by rewrite Hglob).
  assert (H4 : cli_import_repos E self log = (Ok tt, log))
    by (unfold cli_import_repos; by rewrite Hglob).
  split_and!; [done..|].
  intros types. unfold cli_import, control_list, PyStr.split.
  cbn [mbind result_bind]. unfold mbind, M_bind, lift. cbn [co_result].
  repeat (destruct (bool_decide _); rewrite ?H1, ?H2, ?H3, ?H4; cbn [mret M_ret]);
    done.
Qed.

Lemma import_of_nothing_witness :
  cli_import demo_env (demo_app false) "ALL,-realms" [] = (Ok tt, []).
Proof.
  refine (proj2 (proj2 (proj2 (proj2
            (import_of_nothing demo_env (demo_app false) [] _)))) "ALL,-realms").
  reflexivity.
Defined.

(** X20.  The LDAP endpoints and the roles are read from their files,
    all of them, before the first call: when a file cannot be read (or,
    for the roles, when a score cannot be computed), the importer
    raises and nothing at all has been sent. *)
Theorem import_reads_all_first (E : env) (self : Nexus3Ctl) (log : list request)
    (e : exn) :
  (mapM (load E) (glob E (target_dir self +:+ "/ldap/*.json")) = Raise e →
   cli_import_ldap E self log = (Raise e, log))
  ∧ (mapM (load E) (glob E (target_dir self +:+ "/roles/*.json")) = Raise e →
     cli_import_roles E self log = (Raise e, log))
  ∧ (∀ items,
       mapM (load E) (glob E (target_dir self +:+ "/roles/*.json")) = Ok items →
       py_sorted nexus_sort_roles items = Raise e →
       cli_import_roles E self log = (Raise e, log)).
Proof.
  split_and!.
  - intros H. unfold cli_import_ldap, mbind, M_bind, lift. by rewrite H.
  - intros H. unfold cli_import_roles, mbind, M_bind, lift. by rewrite H.
  - intros items H1 H2. unfold cli_import_roles, mbind, M_bind, lift.
    by rewrite H1, H2.
Qed.

Lemma import_reads_all_first_witness :
  cli_import_roles demo_env_broken (demo_app false) []
  = (Raise JSONDecodeError, []).
Proof.
  apply (proj1 (proj2 (import_reads_all_first demo_env_broken (demo_app false) []
                         JSONDecodeError))).
  reflexivity.
Defined.

(** The repositories, on the contrary, are read one by one: the first
    file is pushed before the second is found to be unreadable. *)
Example import_repos_reads_lazily :
  cli_import_repos
    (Env (λ _ _, Ok (200, Some (JDict [("format", JStr "raw"); ("type", JStr "hosted")])))
       (λ _, "{}") (λ _, "") (λ _, Raise TypeError)
       (λ _, ["out/a.json"; "out/b.json"])
       (λ f, if String.eqb f "out/a.json" then Ok demo_repo else Raise JSONDecodeError)
       (λ _, true) (λ _ _, false))
    (demo_app false) []
  = (Raise JSONDecodeError,
     [Request "GET" "http://nexus/service/rest/v1/repositories/releases" None;
      Request "GET" "http://nexus/service/rest/v1/repositories/raw/hosted/releases" None;
      Request "PUT" "http://nexus/service/rest/v1/repositories/maven/hosted/releases"
        (Some "{}")]).
Proof. reflexivity. Qed.

Lemma filter_sublist {A} (P : A → Prop) `{!∀ x, Decision (P x)} (l : list A) :
  sublist (filter P l) l.
Proof.
  induction l as [|x l IH]; [constructor|].
  rewrite filter_cons. destruct (decide (P x)); by constructor.
Qed.

(** X21.  What [api_get_roles] keeps of a listing: on an answer 200
    that holds a list of roles, and without rules, it returns the roles
    of the listing in their order, leaving out those whose id is a
    default role ([nx-admin], [nx-anonymous]) when these are excluded,
    and those whose source is ["LDAP"] when LDAP roles are excluded. *)
Theorem api_get_roles_filters (E : env) (self : Nexus3Ctl) (log : list request)
    (exclude_ldap exclude_default : bool) (roles : list item) :
  remote E log (get_request self "security/roles")
  = Ok (200, Some (JList (JDict <$> roles))) →
  ∃ out : list item,
    api_get_roles E self exclude_ldap exclude_default LNone None log
    = (Ok (JList (JDict <$> out)), log ++ [get_request self "security/roles"])
    ∧ sublist out roles
    ∧ ∀ r, r ∈ out ↔
           r ∈ roles
           ∧ (exclude_default = true →
              ∀ d, d ∈ nexus_default_roles → assoc "id" r ≠ Some (JStr d))
           ∧ (exclude_ldap = true → assoc "source" r ≠ Some (JStr "LDAP")).
Proof.
  intros Hremote.
  set (keep_id := λ r : item,
         negb (existsb (λ d, json_eq (default JNull (assoc "id" r)) (JStr d))
                 nexus_default_roles) = true).
  set (keep_src := λ r : item,
         negb (json_eq (default JNull (assoc "source" r)) (JStr "LDAP")) = true).
  assert (Hid : ∀ r, keep_id r ↔
            ∀ d, d ∈ nexus_default_roles → assoc "id" r ≠ Some (JStr d)).
  { intros r. unfold keep_id. rewrite negb_true_iff, <- not_true_iff_false,
      existsb_exists. split.
    - intros H d Hd Heq. apply H. exists d. split; [by apply list_elem_of_In|].
      rewrite Heq. cbn. apply String.eqb_refl.
    - intros H (d & Hd%list_elem_of_In & Heq). apply json_eq_str in Heq.
      apply (H d Hd). by destruct (assoc "id" r); simplify_eq/=. }
  assert (Hsrc : ∀ r, keep_src r ↔ assoc "source" r ≠ Some (JStr "LDAP")).
  { intros r. unfold keep_src. rewrite negb_true_iff, <- not_true_iff_false,
      json_eq_str. split.
    - intros H Heq. apply H. by rewrite Heq.
    - intros H Heq. apply H. by destruct (assoc "source" r); simplify_eq/=. }
  assert (Hfilter_id : ∀ l : list item,
            filterM (λ it, v ← py_get it "id" JNull;
                           Ok (negb (existsb (λ r, json_eq v (JStr r))
                                       nexus_default_roles))) (JDict <$> l)
            = Ok (JDict <$> filter keep_id l)).
  { intros l.
    by apply (filterM_dicts "id" JNull
                (λ v, negb (existsb (λ r, json_eq v (JStr r)) nexus_default_roles))). }
  assert (Hfilter_src : ∀ l : list item,
            filterM (λ it, v ← py_get it "source" JNull;
                           Ok (negb (json_eq v (JStr "LDAP")))) (JDict <$> l)
            = Ok (JDict <$> filter keep_src l)).
  { intros l.
    by apply (filterM_dicts "source" JNull (λ v, negb (json_eq v (JStr "LDAP")))). }
  assert (Hrun : ∀ xl xd,
            api_get_roles E self xl xd LNone None log
            = (Ok (JList (JDict <$>
                 (if xl then filter keep_src else id)
                   ((if xd then filter keep_id else id) roles))),
               log ++ [get_request self "security/roles"])).
  { intros xl xd. unfold api_get_roles. unfold mbind at 1. unfold M_bind.
    rewrite (api_fetch_status _ _ _ _ _ _ Hremote).
    cbn [Z.eqb Pos.eqb status_code negb response_json limits_truthy].
    unfold mbind, M_bind, lift, mret, M_ret. cbn [py_iter].
    destruct xd, xl; cbn [py_iter fmap result_fmap id];
      rewrite ?Hfilter_id; cbn [py_iter fmap result_fmap];
      rewrite ?Hfilter_src; reflexivity. }
  eexists. split; [apply Hrun|].
  destruct exclude_default, exclude_ldap; cbn [id]; split.
  - etransitivity; apply filter_sublist.
  - intros r. rewrite !list_elem_of_filter, Hid, Hsrc. tauto.
  - apply filter_sublist.
  - intros r. rewrite !list_elem_of_filter, Hid. intuition discriminate.
  - apply filter_sublist.
  - intros r. rewrite !list_elem_of_filter, Hsrc. intuition discriminate.
  - reflexivity.
  - intros r. intuition discriminate.
Qed.

Lemma api_get_roles_filters_witness :
  ∃ out : list item,
    api_get_roles demo_env_roles (demo_app false) true true LNone None []
    = (Ok (JList (JDict <$> out)), [get_request (demo_app false) "security/roles"])
    ∧ sublist out demo_roles.
Proof.
  destruct (api_get_roles_filters demo_env_roles (demo_app false) [] true true
              demo_roles eq_refl) as (out & Hout & Hsub & _).
  exists out. by split.
Defined.

Example api_get_roles_example :
  (api_get_roles demo_env_roles (demo_app false) true true LNone None []).1
  = Ok (JList [JDict [("id", JStr "developers"); ("source", JStr "default")]]).
Proof. reflexivity. Qed.

(** ** The export side *)

Section ExportsOnly.

Context (P : request → Prop) (Q : fs_op → Prop).

Lemma exports_only_ret {A} (a : A) : exports_only P Q (mret a).
Proof.
  intros w. exists [], []. cbn. rewrite !app_nil_r. by repeat split.
Qed.

Lemma exports_only_liftX {A} (r : result A) : exports_only P Q (liftX r).
Proof.
  intros w. exists [], []. cbn. rewrite !app_nil_r. by repeat split.
Qed.

Lemma exports_only_liftM {A} (m : M A) : sends_only P m → exports_only P Q (liftM m).
Proof.
  intros Hm w. destruct (Hm (calls w)) as (new & Hlog & Hnew).
  exists new, []. unfold liftM. destruct (m (calls w)) as [r log'].
  cbn in *. rewrite app_nil_r. by repeat split.
Qed.

Lemma exports_only_bind {A B} (m : X A) (f : A → X B) :
  exports_only P Q m → (∀ a, exports_only P Q (f a)) → exports_only P Q (m ≫= f).
Proof.
  intros Hm Hf w. destruct (Hm w) as (c1 & o1 & Hc1 & HP1 & Ho1 & HQ1).
  unfold mbind, X_bind. destruct (m w) as [[a|e] w'] eqn:Hmw; cbn in Hc1, Ho1.
  - destruct (Hf a w') as (c2 & o2 & Hc2 & HP2 & Ho2 & HQ2).
    exists (c1 ++ c2), (o1 ++ o2). rewrite Hc2, Ho2, Hc1, Ho1, <- !app_assoc.
    split_and!; try done; by apply Forall_app.
  - by exists c1, o1.
Qed.

Lemma exports_only_for_each {A} (f : A → X unit) (l : list A) :
  (∀ x, exports_only P Q (f x)) → exports_only P Q (for_eachX f l).
Proof.
  intros Hf. induction l as [|x l IH]; cbn [for_eachX].
  - apply exports_only_ret.
  - apply exports_only_bind; [apply Hf | by intros _].
Qed.

Lemma exports_only_fs F (op : fs_op) : Q op → exports_only P Q (fs F op).
Proof.
  intros HQ w. exists [], [op]. cbn. rewrite app_nil_r. by repeat split; repeat constructor.
Qed.

Lemma write_to_file_within F filename content fmt append_ext dry :
  writes_within Q fmt dry →
  exports_only P Q (write_to_file F filename content fmt append_ext dry).
Proof.
  intros Hw. unfold write_to_file.
  destruct Hw as [->|[(f & -> & Hj & Hy)|HQ]].
  - apply exports_only_bind; [apply exports_only_liftX | intros cf]. cbn zeta.
    apply exports_only_bind; [apply exports_only_ret | intros _].
    apply exports_only_ret.
  - apply String.eqb_neq in Hj, Hy. rewrite Hj, Hy.
    intros w. exists [], []. cbn. rewrite !app_nil_r. by repeat split.
  - apply exports_only_bind; [apply exports_only_liftX | intros cf]. cbn zeta.
    apply exports_only_bind; [|intros _; apply exports_only_ret].
    destruct dry; [apply exports_only_ret|]. cbn zeta.
    apply exports_only_bind; [|intros _; by apply exports_only_fs].
    intros w. destruct (isdir F (ops w) _).
    + apply exports_only_ret.
    + by apply exports_only_fs.
Qed.

End ExportsOnly.

Section ExportMethods.

Variable E : env.
Variable F : fsenv.
Variable self : Nexus3Ctl.
Variable output_format : option string.
Variable Q : fs_op → Prop.

Hypothesis HQ : writes_within Q output_format (dry_mode self).

Let GET (rq : request) : Prop := rq_method rq = "GET".

Lemma export_by_name_within (folder : string) (items : json) :
  exports_only GET Q (export_by_name F self output_format folder items).
Proof.
  unfold export_by_name.
  apply exports_only_bind; [apply exports_only_liftX | intros _].
  apply exports_only_bind; [apply exports_only_liftX | intros elems].
  apply exports_only_for_each. intros it.
  apply exports_only_bind; [apply exports_only_liftX | intros ?].
  apply exports_only_bind; [apply exports_only_liftX | intros ?]. cbn zeta.
  apply exports_only_bind; [by apply write_to_file_within | intros ?].
  apply exports_only_ret.
Qed.

Lemma cli_export_realms_within limits select :
  exports_only GET Q (cli_export_realms E F self output_format limits select).
Proof.
  unfold cli_export_realms.
  apply exports_only_bind; [apply exports_only_liftM, api_get_collection_any | intros ?].
  cbn zeta. apply exports_only_bind; [by apply write_to_file_within | intros ?].
  apply exports_only_ret.
Qed.

Lemma cli_export_ldap_within limits select :
  exports_only GET Q (cli_export_ldap E F self output_format limits select).
Proof.
  unfold cli_export_ldap.
  apply exports_only_bind; [apply exports_only_liftM, api_get_collection_any | intros ?].
  apply export_by_name_within.
Qed.

Lemma cli_export_roles_within limits select :
  exports_only GET Q (cli_export_roles E F self output_format limits select).
Proof.
  unfold cli_export_roles.
  apply exports_only_bind; [apply exports_only_liftM, api_get_roles_any | intros ?].
  apply export_by_name_within.
Qed.

Lemma cli_export_repos_within limits select :
  exports_only GET Q (cli_export_repos E F self output_format limits select).
Proof.
  unfold cli_export_repos.
  apply exports_only_bind; [apply exports_only_liftM, api_get_collection_any | intros ?].
  apply exports_only_bind; [apply exports_only_liftX | intros _].
  apply exports_only_bind; [apply exports_only_liftX | intros elems].
  apply exports_only_for_each. intros repo.
  do 3 (apply exports_only_bind; [apply exports_only_liftX | intros ?]). cbn zeta.
  apply exports_only_bind; [apply exports_only_liftM, api_get_repo_any | intros ?].
  apply exports_only_bind; [apply exports_only_liftX | intros ?].
  apply exports_only_bind; [by apply write_to_file_within | intros ?].
  apply exports_only_ret.
Qed.

Lemma cli_export_within types limits select clean :
  (dry_mode self = false → ∀ d, Q (RmTree d)) →
  exports_only GET Q (cli_export E F self output_format types limits select clean).
Proof.
  intros Hrm. unfold cli_export.
  apply exports_only_bind; [apply exports_only_liftX | intros r]. cbn zeta.
  apply exports_only_bind.
  { destruct clean; [|apply exports_only_ret].
    intros w. unfold clean_target_dir.
    destruct (isdir F (ops w) _); [|apply exports_only_ret].
    destruct (dry_mode self) eqn:Hdry; [apply exports_only_ret|].
    by apply exports_only_fs, Hrm. }
  intros _.
  apply exports_only_bind;
    [destruct (bool_decide _); [apply cli_export_repos_within | apply exports_only_ret]
    | intros _].
  apply exports_only_bind;
    [destruct (bool_decide _); [apply cli_export_ldap_within | apply exports_only_ret]
    | intros _].
  apply exports_only_bind;
    [destruct (bool_decide _); [apply cli_export_roles_within | apply exports_only_ret]
    | intros _].
  destruct (bool_decide _); [apply cli_export_realms_within | apply exports_only_ret].
Qed.

End ExportMethods.

(** X22.  An export never changes anything on the server: dry mode or
    not, and whatever the output format, the exporters and the [export]
    command send GET calls only. *)
Theorem exports_only_get (E : env) (F : fsenv) (self : Nexus3Ctl)
    (output_format : option string) :
  (∀ limits select,
     export_reads_only (cli_export_repos E F self output_format limits select))
  ∧ (∀ limits select,
       export_reads_only (cli_export_ldap E F self output_format limits select))
  ∧ (∀ limits select,
       export_reads_only (cli_export_roles E F self output_format limits select))
  ∧ (∀ limits select,
       export_reads_only (cli_export_realms E F self output_format limits select))
  ∧ (∀ types limits select clean,
       export_reads_only
         (cli_export E F self output_format types limits select clean)).
Proof.
  assert (HQ : writes_within (λ _, True) output_format (dry_mode self))
    by (right; right; done).
  unfold export_reads_only. split_and!; intros.
  - by apply cli_export_repos_within.
  - by apply cli_export_ldap_within.
  - by apply cli_export_roles_within.
  - by apply cli_export_realms_within.
  - by apply cli_export_within.
Qed.

(** X23.  A dry export leaves the file store alone: with dry mode on,
    the exporters and the [export] command, even with the option to
    clean the target directory first, ask for no file operation at all
    (and send GET calls only). *)
Theorem dry_export_writes_nothing (E : env) (F : fsenv) (self : Nexus3Ctl)
    (output_format : option string) :
  dry_mode self = true →
  (∀ limits select,
     export_touches_nothing (cli_export_repos E F self output_format limits select))
  ∧ (∀ limits select,
       export_touches_nothing (cli_export_ldap E F self output_format limits select))
  ∧ (∀ limits select,
       export_touches_nothing (cli_export_roles E F self output_format limits select))
  ∧ (∀ limits select,
       export_touches_nothing (cli_export_realms E F self output_format limits select))
  ∧ (∀ types limits select clean,
       export_touches_nothing
         (cli_export E F self output_format types limits select clean)).
Proof.
  intros Hdry.
  assert (HQ : writes_within (λ _, False) output_format (dry_mode self)) by (by left).
  unfold export_touches_nothing. split_and!; intros.
  - by apply cli_export_repos_within.
  - by apply cli_export_ldap_within.
  - by apply cli_export_roles_within.
  - by apply cli_export_realms_within.
  - apply cli_export_within; [done|]. by rewrite Hdry.
Qed.

Lemma dry_export_writes_nothing_witness :
  export_touches_nothing
    (cli_export demo_env_roles demo_fs (demo_app true) (Some OutputFormat.JSON)
       "ALL" "" None true).
Proof.
  apply (dry_export_writes_nothing demo_env_roles demo_fs (demo_app true)
           (Some OutputFormat.JSON) eq_refl).
Defined.

(** X24.  A format that [write_to_file] does not support, such as
    ["python"], is found out only when the first file is to be written.
    No file is then ever written; the realms exporter raises as soon as
    its listing has been fetched; and the [export] command, asked to
    clean first, has removed the target directory by then. *)
Theorem export_unsupported_format (E : env) (F : fsenv) (self : Nexus3Ctl) (f : string) :
  f ≠ OutputFormat.JSON → f ≠ OutputFormat.YAML →
  (∀ limits select,
     export_touches_nothing (cli_export_repos E F self (Some f) limits select))
  ∧ (∀ limits select,
       export_touches_nothing (cli_export_ldap E F self (Some f) limits select))
  ∧ (∀ limits select,
       export_touches_nothing (cli_export_roles E F self (Some f) limits select))
  ∧ (∀ limits select,
       export_touches_nothing (cli_export_realms E F self (Some f) limits select))
  ∧ (∀ limits select w items,
       (api_get_realms E self limits select (calls w)).1 = Ok items →
       (cli_export_realms E F self (Some f) limits select w).1
       = Raise (Nexus3CtlException ("Unsupported format: " +:+ f)))
  ∧ (∀ types limits select clean,
       exports_only (λ rq, rq_method rq = "GET") (λ op, ∃ d, op = RmTree d)
         (cli_export E F self (Some f) types limits select clean)).
Proof.
  intros Hj Hy.
  assert (HQ : ∀ Q, writes_within Q (Some f) (dry_mode self))
    by (intros Q; right; left; eauto).
  unfold export_touches_nothing. split_and!; intros.
  - by apply cli_export_repos_within.
  - by apply cli_export_ldap_within.
  - by apply cli_export_roles_within.
  - by apply cli_export_realms_within.
  - unfold cli_export_realms, mbind, X_bind, liftM.
    destruct (api_get_realms E self limits select (calls w)) as [r log].
    cbn in H. subst r. cbn zeta. unfold write_to_file, mbind, X_bind, liftX.
    apply String.eqb_neq in Hj, Hy. by rewrite Hj, Hy.
  - apply cli_export_within; [done|]. eauto.
Qed.

Lemma export_unsupported_format_witness :
  (cli_export_realms demo_env demo_fs (demo_app false) (Some OutputFormat.PYTHON)
     LNone None (World [] [])).1
  = Raise (Nexus3CtlException "Unsupported format: python").
Proof.
  refine (proj1 (proj2 (proj2 (proj2 (proj2
            (export_unsupported_format demo_env demo_fs (demo_app false)
               OutputFormat.PYTHON _ _))))) LNone None (World [] []) (JList []) _);
    [discriminate | discriminate | reflexivity].
Defined.

(** With the option to clean, the target directory is gone before the
    format is refused. *)
Example export_clean_then_fail :
  cli_export demo_env
    (FsEnv (λ _ _, true) (λ f, "out") (λ _ _, Ok tt) (λ _, "{}") (λ _, "{}") (λ _, "{}"))
    (demo_app false) (Some OutputFormat.PYTHON) "realms" "" None true (World [] [])
  = (Raise (Nexus3CtlException "Unsupported format: python"),
     World [Request "GET" "http://nexus/service/rest/v1/security/realms/active" None]
           [RmTree "out"]).
Proof. reflexivity. Qed.

Lemma written_app (l1 l2 : list fs_op) : written (l1 ++ l2) = written l1 ++ written l2.
Proof. unfold written. apply omap_app. Qed.

Lemma write_to_file_live F (filename : string) (content : json) (dry : bool)
    (w : world) :
  dry = false →
  (∀ l op, fs_run F l op = Ok tt) →
  ∃ w', write_to_file F filename content (Some OutputFormat.JSON) true dry w
        = (Ok (filename +:+ ".json"), w')
    ∧ calls w' = calls w
    ∧ written (ops w')
      = written (ops w) ++ [(filename +:+ ".json", dumps_indent F content)].
Proof.
  intros -> Hfs. unfold write_to_file, mbind, X_bind, liftX, fs.
  cbn [String.eqb Ascii.eqb Bool.eqb OutputFormat.JSON fst snd].
  destruct (isdir F (ops w) _); cbn [mret X_ret ops calls]; rewrite !Hfs;
    cbn [ops calls]; rewrite ?Hfs; eexists; split_and!; try reflexivity;
    cbn [ops]; rewrite !written_app; cbn; by rewrite ?app_nil_r.
Qed.

(** X25.  One file per item, named after the item.  With dry mode off,
    the JSON format and a file store that lets every operation through,
    the loop of [cli_export_ldap] and [cli_export_roles] returns, sends
    nothing, and writes for each item of the listing, in order, the
    file [<target dir>/<folder>/<name>.json] with the serialization of
    the item; the path is joined as [os.path.join] does, so that a name
    that starts with ["/"] is written at that absolute path, outside
    the target directory. *)
Theorem export_by_name_files (F : fsenv) (self : Nexus3Ctl) (folder : string)
    (its : list item) (w : world) :
  dry_mode self = false →
  (∀ l op, fs_run F l op = Ok tt) →
  well_keyed "name" its →
  ∃ w',
    export_by_name F self (Some OutputFormat.JSON) folder (JList (JDict <$> its)) w
    = (Ok tt, w')
    ∧ calls w' = calls w
    ∧ written (ops w')
      = written (ops w)
        ++ ((λ it, (path_join (target_dir self) [folder; key_str "name" it] +:+ ".json",
                    dumps_indent F (JDict it))) <$> its)
    ∧ ∀ name, PyStr.startswith name "/" = true →
              path_join (target_dir self) [folder; name] = name.
Proof.
  intros Hdry Hfs Hwk.
  assert (Hloop : ∀ w, ∃ w',
    for_eachX (λ it,
        name ← liftX (py_getitem it "name");
        name ← liftX (as_path name);
        _ ← write_to_file F (path_join (target_dir self) [folder; name]) it
              (Some OutputFormat.JSON) true (dry_mode self);
        mret tt) (JDict <$> its) w = (Ok tt, w')
    ∧ calls w' = calls w
    ∧ written (ops w')
      = written (ops w)
        ++ ((λ it, (path_join (target_dir self) [folder; key_str "name" it] +:+ ".json",
                    dumps_indent F (JDict it))) <$> its)).
  { clear w. induction its as [|it its IH]; intros w.
    - exists w. cbn. by rewrite app_nil_r.
    - pose proof (well_keyed_str "name" _ it Hwk ltac:(left)) as Hit.
      apply Forall_cons in Hwk as [_ Hwk]. specialize (IH Hwk).
      rewrite fmap_cons. cbn [for_eachX].
      unfold mbind at 1. unfold X_bind at 1.
      unfold mbind at 1. unfold X_bind at 1. unfold liftX at 1.
      cbn [py_getitem]. rewrite Hit.
      unfold mbind at 1. unfold X_bind at 1. unfold liftX at 1. cbn [as_path].
      destruct (write_to_file_live F
                  (path_join (target_dir self) [folder; key_str "name" it])
                  (JDict it) (dry_mode self) w Hdry Hfs) as (w1 & Hw1 & Hc1 & Ho1).
      unfold mbind at 1. unfold X_bind at 1. rewrite Hw1. cbn [mret X_ret].
      destruct (IH w1) as (w' & Hw' & Hc' & Ho').
      exists w'. rewrite Hw', Hc', Hc1, Ho', Ho1, <- app_assoc. done. }
  destruct (Hloop w) as (w' & Hw' & Hc' & Ho').
  exists w'. split_and!; [|done|done|].
  - unfold export_by_name, mbind, X_bind, liftX. cbn [py_len py_iter]. exact Hw'.
  - intros name Hname. unfold path_join. cbn [foldl]. by rewrite Hname.
Qed.

Lemma export_by_name_files_witness :
  ∃ w',
    export_by_name demo_fs (demo_app false) (Some OutputFormat.JSON) "ldap"
      (JList (JDict <$> [repo_releases; repo_central])) (World [] [])
    = (Ok tt, w')
    ∧ written (ops w')
      = [("out/ldap/maven-releases.json", "{}"); ("out/ldap/maven-central.json", "{}")].
Proof.
  destruct (export_by_name_files demo_fs (demo_app false) "ldap"
              [repo_releases; repo_central] (World [] []))
    as (w' & Hw' & _ & Ho & _).
  - reflexivity.
  - reflexivity.
  - repeat constructor; eexists; reflexivity.
  - exists w'. split; [exact Hw' | exact Ho].
Defined.

(** ** The verbosity *)


